(** * pefile-go, [util.go]: entropy, digests, fuzzy hash and name validators

    A shallow embedding of the package's utility functions, and the
    properties of them that its description states.

    - A byte slice [[]byte] is a [list byte].
    - Go's [int] (64 bits) is a [Z] whose wrap-around is written out
      ([wrap_int]); [float64] is the kernel's binary64 type [float], related
      to its IEEE 754 specification [spec_float] by the library's
      [FloatAxioms].  Every floating-point operation is rounded on its own.
    - A [hash.Hash] is a pointer to an object that [Write] mutates: the
      digest functions run in a heap of such objects.
    - Functions of the Go standard library and of the imported packages are
      grouped in modules named after their packages ([math], [binary],
      [md5], [sha1], [sha256], [hex], [utf8], [unicode], [syntax], [regexp],
      [errors]).  What the package only calls and the sources do not hold is
      a parameter: [math.Log2] for [GetEntropy], the Unicode tables for the
      validators, [ssdeep.FuzzyBytes] for [GetFuzzyHash].

    The definitions come first, the properties after them. *)

From Stdlib Require Import ZArith List Lia Bool Floats Uint63 String Ascii Reals Lra
  Permutation.
From Stdlib.Strings Require Import Byte.
Import ListNotations.

Local Open Scope Z_scope.

(* ------------------------------------------------------------------ *)
(** ** Machine integers and conversions *)

(** Go's [int] on the 64-bit targets: an integer result is reduced to the
    signed 64-bit range. *)
Definition wrap_int (z : Z) : Z := (z + 2 ^ 63) mod 2 ^ 64 - 2 ^ 63.

(** The conversion [float64(n)] of an [int]: round to nearest, ties to even. *)
Definition float64_of_int (n : Z) : float :=
  if n =? - 2 ^ 63 then (- 0x1p63)%float
  else if n <? 0 then (- of_uint63 (Uint63.of_Z (- n)))%float
  else of_uint63 (Uint63.of_Z n).

(** [len(data)] as an [int]. *)
Definition len {A : Type} (data : list A) : Z := Z.of_nat (List.length data).

(* ------------------------------------------------------------------ *)
(** ** Package [math] of the Go standard library

    [Frexp], [log] and [log2] follow the portable (pure Go) sources of the
    package.  Only [Log2] is called by [GetEntropy]; the theorems below take
    it as a parameter and use this implementation to show that what they
    assume of it holds. *)
Module math.

Local Open Scope float_scope.

(** [math.Frexp]: [x = frac * 2^exp] with [0.5 <= |frac| < 1]; zeros,
    infinities and NaN are returned unchanged with exponent 0. *)
Definition Frexp (f : float) : float * Z :=
  if PrimFloat.is_nan f || PrimFloat.is_infinity f || PrimFloat.is_zero f
  then (f, 0%Z) else Z.frexp f.

Definition Ln2Hi := 0x1.62e42fee00000p-1.
Definition Ln2Lo := 0x1.a39ef35793c76p-33.
Definition L1 := 0x1.5555555555593p-1.
Definition L2 := 0x1.999999997fa04p-2.
Definition L3 := 0x1.2492494229359p-2.
Definition L4 := 0x1.c71c51d8e78afp-3.
Definition L5 := 0x1.7466496cb03dep-3.
Definition L6 := 0x1.39a09d078c69fp-3.
Definition L7 := 0x1.2f112df3e5244p-3.
(** [Sqrt2/2] and [1/Ln2], rounded to [float64]. *)
Definition Sqrt2_div_2 := 0x1.6a09e667f3bcdp-1.
Definition inv_Ln2 := 0x1.71547652b82fep+0.

(** [math.Log], portable implementation. *)
Definition Log (x : float) : float :=
  if PrimFloat.is_nan x || (x =? infinity) then x
  else if x <? 0 then nan
  else if x =? 0 then neg_infinity
  else
    let '(f1, ki) := Frexp x in
    let '(f1, ki) := if f1 <? Sqrt2_div_2 then (f1 * 2, (ki - 1)%Z) else (f1, ki) in
    let f := f1 - 1 in
    let k := float64_of_int ki in
    let s := f / (2 + f) in
    let s2 := s * s in
    let s4 := s2 * s2 in
    let t1 := s2 * (L1 + s4 * (L3 + s4 * (L5 + s4 * L7))) in
    let t2 := s4 * (L2 + s4 * (L4 + s4 * L6)) in
    let R := t1 + t2 in
    let hfsq := 0.5 * f * f in
    k * Ln2Hi - ((hfsq - (s * (hfsq + R) + k * Ln2Lo)) - f).

(** [math.Log2]: exact powers of two give an exact answer. *)
Definition Log2 (x : float) : float :=
  let '(frac, exp) := Frexp x in
  if frac =? 0.5 then float64_of_int (exp - 1)
  else Log frac * inv_Ln2 + float64_of_int exp.

End math.

(* ------------------------------------------------------------------ *)
(** ** [GetEntropy] *)

Section Entropy.

(** [math.Log2], as called by [GetEntropy]. *)
Variable Log2 : float -> float.

(** [occurences := [256]int{0}] *)
Definition occurences_zero : list Z := repeat 0 256.

(** [occurences[i]++].  The index is [int(char)] of a byte, always below
    the array's length 256. *)
Fixpoint incr_at (i : nat) (occurences : list Z) : list Z :=
  match occurences, i with
  | [], _ => []
  | x :: rest, O => wrap_int (x + 1) :: rest
  | x :: rest, S i' => x :: incr_at i' rest
  end.

(** The first loop: [for _, char := range data { occurences[int(char)]++ }]. *)
Definition count_occurences (data : list byte) : list Z :=
  fold_left (fun occurences char => incr_at (Byte.to_nat char) occurences)
            data occurences_zero.

(** The body of the second loop, for one [occurence]. *)
Definition entropy_step (n : Z) (entropy : float) (occurence : Z) : float :=
  if 0 <? occurence then
    let px := (float64_of_int occurence / float64_of_int n)%float in
    (entropy - px * Log2 px)%float
  else entropy.

Definition GetEntropy (data : list byte) : float :=
  if len data =? 0 then 0%float
  else fold_left (entropy_step (len data)) (count_occurences data) 0%float.

End Entropy.

(** *** The entropy loop in exact arithmetic

    The same two loops with [float64] replaced by the real numbers:
    [px = occurence / len(data)] is the exact quotient and [log2] the exact
    binary logarithm. *)
Definition log2_R (x : R) : R := (ln x / ln 2)%R.

Definition entropy_step_R (n : Z) (entropy : R) (occurence : Z) : R :=
  if 0 <? occurence then
    let px := (IZR occurence / IZR n)%R in
    (entropy - px * log2_R px)%R
  else entropy.

Definition GetEntropy_R (data : list byte) : R :=
  if len data =? 0 then 0%R
  else fold_left (entropy_step_R (len data)) (count_occurences data) 0%R.

(* ------------------------------------------------------------------ *)
(** ** Bytes and 32-bit words *)

(** The value of a byte, and the byte of the low eight bits of an integer
    (the conversion [byte(x)]). *)
Definition byte_val (b : byte) : Z := Z.of_N (Byte.to_N b).

Definition byte_of (x : Z) : byte :=
  match Byte.of_N (Z.to_N (Z.land x 0xFF)) with
  | Some b => b
  | None => x00
  end.

(** [uint32] arithmetic: results are reduced modulo [2^32]. *)
Definition uint32 (x : Z) : Z := Z.land x 0xFFFFFFFF.
Definition add32 (x y : Z) : Z := uint32 (x + y).
Definition not32 (x : Z) : Z := Z.lxor x 0xFFFFFFFF.

(** [bits.RotateLeft32] *)
Definition RotateLeft32 (x k : Z) : Z :=
  uint32 (Z.lor (Z.shiftl x k) (Z.shiftr x (32 - k))).

(** [uint64] arithmetic, for the message length counters. *)
Definition uint64 (x : Z) : Z := Z.land x 0xFFFFFFFFFFFFFFFF.

(** Package [encoding/binary]: fixed-size little- and big-endian encodings. *)
Module binary.

Definition LittleEndian_Uint32 (b0 b1 b2 b3 : byte) : Z :=
  Z.lor (Z.lor (byte_val b0) (Z.shiftl (byte_val b1) 8))
        (Z.lor (Z.shiftl (byte_val b2) 16) (Z.shiftl (byte_val b3) 24)).

Definition BigEndian_Uint32 (b0 b1 b2 b3 : byte) : Z :=
  LittleEndian_Uint32 b3 b2 b1 b0.

Definition LittleEndian_PutUint32 (v : Z) : list byte :=
  [byte_of v; byte_of (Z.shiftr v 8); byte_of (Z.shiftr v 16); byte_of (Z.shiftr v 24)].

Definition BigEndian_PutUint32 (v : Z) : list byte :=
  [byte_of (Z.shiftr v 24); byte_of (Z.shiftr v 16); byte_of (Z.shiftr v 8); byte_of v].

Definition LittleEndian_PutUint64 (v : Z) : list byte :=
  LittleEndian_PutUint32 v ++ LittleEndian_PutUint32 (Z.shiftr v 32).

Definition BigEndian_PutUint64 (v : Z) : list byte :=
  BigEndian_PutUint32 (Z.shiftr v 32) ++ BigEndian_PutUint32 v.

(** The words of a block, four bytes each; trailing bytes that do not fill
    a word are dropped (blocks are always whole). *)
Fixpoint words (get : byte -> byte -> byte -> byte -> Z) (p : list byte) : list Z :=
  match p with
  | b0 :: b1 :: b2 :: b3 :: rest => get b0 b1 b2 b3 :: words get rest
  | _ => []
  end.

End binary.

(** Splitting a buffer into the whole blocks of [size] bytes it holds and
    the rest, as the [Write] methods of the digests do ([fuel] bounds the
    number of blocks). *)
Fixpoint blocks (fuel : nat) (size : nat) (p : list byte) : list (list byte) * list byte :=
  match fuel with
  | O => ([], p)
  | S fuel' =>
      if (size <=? List.length p)%nat then
        let '(bs, rest) := blocks fuel' size (skipn size p) in
        (firstn size p :: bs, rest)
      else ([], p)
  end.

(* ------------------------------------------------------------------ *)
(** ** Package [hash]: the [hash.Hash] interface

    [Write] mutates the receiver: it maps the state before to the state
    after (it never fails).  [Sum] appends the digest of what was written
    so far to its argument and leaves the receiver unchanged. *)
Class Hash (D : Type) := {
  Write : D -> list byte -> D;
  Sum : D -> list byte -> list byte;
  Size : Z;
  BlockSize : Z
}.

(** ** Package [crypto/md5] *)
Module md5.

Record digest := mk {
  s : Z * Z * Z * Z;      (* [s [4]uint32] *)
  x : list byte;          (* [x[:nx]], the bytes not yet hashed *)
  len : Z                 (* [len uint64] *)
}.

Definition init : Z * Z * Z * Z :=
  (0x67452301, 0xEFCDAB89, 0x98BADCFE, 0x10325476).

(** [md5.New()] *)
Definition New : digest := mk init [] 0.

(** [floor(2^32 * abs(sin(i+1)))] *)
Definition table : list Z :=
  [0xd76aa478; 0xe8c7b756; 0x242070db; 0xc1bdceee] ++
  [0xf57c0faf; 0x4787c62a; 0xa8304613; 0xfd469501] ++
  [0x698098d8; 0x8b44f7af; 0xffff5bb1; 0x895cd7be] ++
  [0x6b901122; 0xfd987193; 0xa679438e; 0x49b40821] ++
  [0xf61e2562; 0xc040b340; 0x265e5a51; 0xe9b6c7aa] ++
  [0xd62f105d; 0x02441453; 0xd8a1e681; 0xe7d3fbc8] ++
  [0x21e1cde6; 0xc33707d6; 0xf4d50d87; 0x455a14ed] ++
  [0xa9e3e905; 0xfcefa3f8; 0x676f02d9; 0x8d2a4c8a] ++
  [0xfffa3942; 0x8771f681; 0x6d9d6122; 0xfde5380c] ++
  [0xa4beea44; 0x4bdecfa9; 0xf6bb4b60; 0xbebfbc70] ++
  [0x289b7ec6; 0xeaa127fa; 0xd4ef3085; 0x04881d05] ++
  [0xd9d4d039; 0xe6db99e5; 0x1fa27cf8; 0xc4ac5665] ++
  [0xf4292244; 0x432aff97; 0xab9423a7; 0xfc93a039] ++
  [0x655b59c3; 0x8f0ccc92; 0xffeff47d; 0x85845dd1] ++
  [0x6fa87e4f; 0xfe2ce6e0; 0xa3014314; 0x4e0811a1] ++
  [0xf7537e82; 0xbd3af235; 0x2ad7d2bb; 0xeb86d391].

Definition shift1 : list Z := [7; 12; 17; 22].
Definition shift2 : list Z := [5; 9; 14; 20].
Definition shift3 : list Z := [4; 11; 16; 23].
Definition shift4 : list Z := [6; 10; 15; 21].

(** One of the 64 steps: the round function, the message word and the
    rotation are chosen by the round [i / 16]. *)
Definition step (X : list Z) (st : Z * Z * Z * Z) (i : nat) : Z * Z * Z * Z :=
  let '(a, b, c, d) := st in
  let j := (i mod 16)%nat in
  let '(f, g, sh) :=
    match (i / 16)%nat with
    | 0%nat => (Z.lxor (Z.land (Z.lxor c d) b) d, j, shift1)
    | 1%nat => (Z.lxor (Z.land (Z.lxor b c) d) c, ((5 * j + 1) mod 16)%nat, shift2)
    | 2%nat => (Z.lxor (Z.lxor b c) d, ((3 * j + 5) mod 16)%nat, shift3)
    | _ => (Z.lxor c (Z.lor b (not32 d)), ((7 * j) mod 16)%nat, shift4)
    end in
  let t := add32 (add32 (add32 a f) (nth g X 0)) (nth i table 0) in
  (d, add32 b (RotateLeft32 t (nth (i mod 4) sh 0)), b, c).

(** [block] on one 64-byte block. *)
Definition block1 (st : Z * Z * Z * Z) (p : list byte) : Z * Z * Z * Z :=
  let X := binary.words binary.LittleEndian_Uint32 p in
  let '(a, b, c, d) := st in
  let '(a', b', c', d') := fold_left (step X) (seq 0 64) st in
  (add32 a a', add32 b b', add32 c c', add32 d d').

Definition Write (d : digest) (p : list byte) : digest :=
  let '(bs, rest) := blocks (List.length (x d ++ p)) 64 (x d ++ p) in
  mk (fold_left block1 bs (s d)) rest (uint64 (len d + Z.of_nat (List.length p))).

(** [checkSum]: a 0x80 marker, zeros up to 56 bytes modulo 64, then the
    length in bits, little-endian. *)
Definition checkSum (d : digest) : list byte :=
  let pad := Z.to_nat (uint64 (55 - len d) mod 64) in
  let tmp := [x80] ++ repeat x00 pad
             ++ binary.LittleEndian_PutUint64 (uint64 (Z.shiftl (len d) 3)) in
  let '(a, b, c, e) := s (Write d tmp) in
  binary.LittleEndian_PutUint32 a ++ binary.LittleEndian_PutUint32 b
  ++ binary.LittleEndian_PutUint32 c ++ binary.LittleEndian_PutUint32 e.

Definition Sum (d : digest) (b : list byte) : list byte := b ++ checkSum d.

End md5.

#[export] Instance md5_Hash : Hash md5.digest :=
  {| Write := md5.Write; Sum := md5.Sum; Size := 16; BlockSize := 64 |}.

(** ** Package [crypto/sha1] *)
Module sha1.

Record digest := mk {
  h : Z * Z * Z * Z * Z;  (* [h [5]uint32] *)
  x : list byte;          (* [x[:nx]] *)
  len : Z                 (* [len uint64] *)
}.

Definition init : Z * Z * Z * Z * Z :=
  (0x67452301, 0xEFCDAB89, 0x98BADCFE, 0x10325476, 0xC3D2E1F0).

(** [sha1.New()] *)
Definition New : digest := mk init [] 0.

Definition K0 := 0x5A827999.
Definition K1 := 0x6ED9EBA1.
Definition K2 := 0x8F1BBCDC.
Definition K3 := 0xCA62C1D6.

(** The message schedule: sixteen block words extended to eighty,
    [w[i] = rotl1(w[i-3] ^ w[i-8] ^ w[i-14] ^ w[i-16])]. *)
Definition schedule_step (w : list Z) (i : nat) : list Z :=
  w ++ [RotateLeft32
          (Z.lxor (Z.lxor (nth (i - 3) w 0) (nth (i - 8) w 0))
                  (Z.lxor (nth (i - 14) w 0) (nth (i - 16) w 0))) 1].

Definition schedule (p : list byte) : list Z :=
  fold_left schedule_step (seq 16 64) (binary.words binary.BigEndian_Uint32 p).

Definition step (w : list Z) (st : Z * Z * Z * Z * Z) (i : nat) : Z * Z * Z * Z * Z :=
  let '(a, b, c, d, e) := st in
  let '(f, k) :=
    match (i / 20)%nat with
    | 0%nat => (Z.lor (Z.land b c) (Z.land (not32 b) d), K0)
    | 1%nat => (Z.lxor (Z.lxor b c) d, K1)
    | 2%nat => (Z.lor (Z.land (Z.lor b c) d) (Z.land b c), K2)
    | _ => (Z.lxor (Z.lxor b c) d, K3)
    end in
  let t := add32 (add32 (add32 (add32 (RotateLeft32 a 5) f) e) (nth i w 0)) k in
  (t, a, RotateLeft32 b 30, c, d).

Definition block1 (st : Z * Z * Z * Z * Z) (p : list byte) : Z * Z * Z * Z * Z :=
  let w := schedule p in
  let '(h0, h1, h2, h3, h4) := st in
  let '(a, b, c, d, e) := fold_left (step w) (seq 0 80) st in
  (add32 h0 a, add32 h1 b, add32 h2 c, add32 h3 d, add32 h4 e).

Definition Write (d : digest) (p : list byte) : digest :=
  let '(bs, rest) := blocks (List.length (x d ++ p)) 64 (x d ++ p) in
  mk (fold_left block1 bs (h d)) rest (uint64 (len d + Z.of_nat (List.length p))).

(** [checkSum]: a 0x80 marker, zeros up to 56 bytes modulo 64, then the
    length in bits, big-endian. *)
Definition checkSum (d : digest) : list byte :=
  let t := if len d mod 64 <? 56 then 56 - len d mod 64 else 64 + 56 - len d mod 64 in
  let padlen := [x80] ++ repeat x00 (Z.to_nat (t - 1))
                ++ binary.BigEndian_PutUint64 (uint64 (Z.shiftl (len d) 3)) in
  let '(h0, h1, h2, h3, h4) := h (Write d padlen) in
  binary.BigEndian_PutUint32 h0 ++ binary.BigEndian_PutUint32 h1
  ++ binary.BigEndian_PutUint32 h2 ++ binary.BigEndian_PutUint32 h3
  ++ binary.BigEndian_PutUint32 h4.

Definition Sum (d : digest) (b : list byte) : list byte := b ++ checkSum d.

End sha1.

#[export] Instance sha1_Hash : Hash sha1.digest :=
  {| Write := sha1.Write; Sum := sha1.Sum; Size := 20; BlockSize := 64 |}.

(** ** Package [crypto/sha256] *)
Module sha256.

Record digest := mk {
  h : list Z;             (* [h [8]uint32] *)
  x : list byte;          (* [x[:nx]] *)
  len : Z                 (* [len uint64] *)
}.

Definition init : list Z := [
  0x6A09E667; 0xBB67AE85; 0x3C6EF372; 0xA54FF53A;
  0x510E527F; 0x9B05688C; 0x1F83D9AB; 0x5BE0CD19 ].

(** [sha256.New()] *)
Definition New : digest := mk init [] 0.

Definition _K : list Z :=
  [0x428a2f98; 0x71374491; 0xb5c0fbcf; 0xe9b5dba5] ++
  [0x3956c25b; 0x59f111f1; 0x923f82a4; 0xab1c5ed5] ++
  [0xd807aa98; 0x12835b01; 0x243185be; 0x550c7dc3] ++
  [0x72be5d74; 0x80deb1fe; 0x9bdc06a7; 0xc19bf174] ++
  [0xe49b69c1; 0xefbe4786; 0x0fc19dc6; 0x240ca1cc] ++
  [0x2de92c6f; 0x4a7484aa; 0x5cb0a9dc; 0x76f988da] ++
  [0x983e5152; 0xa831c66d; 0xb00327c8; 0xbf597fc7] ++
  [0xc6e00bf3; 0xd5a79147; 0x06ca6351; 0x14292967] ++
  [0x27b70a85; 0x2e1b2138; 0x4d2c6dfc; 0x53380d13] ++
  [0x650a7354; 0x766a0abb; 0x81c2c92e; 0x92722c85] ++
  [0xa2bfe8a1; 0xa81a664b; 0xc24b8b70; 0xc76c51a3] ++
  [0xd192e819; 0xd6990624; 0xf40e3585; 0x106aa070] ++
  [0x19a4c116; 0x1e376c08; 0x2748774c; 0x34b0bcb5] ++
  [0x391c0cb3; 0x4ed8aa4a; 0x5b9cca4f; 0x682e6ff3] ++
  [0x748f82ee; 0x78a5636f; 0x84c87814; 0x8cc70208] ++
  [0x90befffa; 0xa4506ceb; 0xbef9a3f7; 0xc67178f2].

(** The message schedule: sixteen block words extended to sixty-four. *)
Definition schedule_step (w : list Z) (i : nat) : list Z :=
  let v1 := nth (i - 2) w 0 in
  let t1 := Z.lxor (Z.lxor (RotateLeft32 v1 (32 - 17)) (RotateLeft32 v1 (32 - 19)))
                   (Z.shiftr v1 10) in
  let v2 := nth (i - 15) w 0 in
  let t2 := Z.lxor (Z.lxor (RotateLeft32 v2 (32 - 7)) (RotateLeft32 v2 (32 - 18)))
                   (Z.shiftr v2 3) in
  w ++ [add32 (add32 (add32 t1 (nth (i - 7) w 0)) t2) (nth (i - 16) w 0)].

Definition schedule (p : list byte) : list Z :=
  fold_left schedule_step (seq 16 48) (binary.words binary.BigEndian_Uint32 p).

Definition step (w : list Z) (st : list Z) (i : nat) : list Z :=
  match st with
  | [a; b; c; d; e; f; g; h] =>
      let S1 := Z.lxor (Z.lxor (RotateLeft32 e (32 - 6)) (RotateLeft32 e (32 - 11)))
                       (RotateLeft32 e (32 - 25)) in
      let ch := Z.lxor (Z.land e f) (Z.land (not32 e) g) in
      let t1 := add32 (add32 (add32 (add32 h S1) ch) (nth i _K 0)) (nth i w 0) in
      let S0 := Z.lxor (Z.lxor (RotateLeft32 a (32 - 2)) (RotateLeft32 a (32 - 13)))
                       (RotateLeft32 a (32 - 22)) in
      let maj := Z.lxor (Z.lxor (Z.land a b) (Z.land a c)) (Z.land b c) in
      let t2 := add32 S0 maj in
      [add32 t1 t2; a; b; c; add32 d t1; e; f; g]
  | _ => st
  end.

(** Word-wise addition of the working variables to the chaining value. *)
Fixpoint add_words (hs vs : list Z) : list Z :=
  match hs, vs with
  | hd :: hs', v :: vs' => add32 hd v :: add_words hs' vs'
  | _, _ => hs
  end.

Definition block1 (st : list Z) (p : list byte) : list Z :=
  add_words st (fold_left (step (schedule p)) (seq 0 64) st).

Definition Write (d : digest) (p : list byte) : digest :=
  let '(bs, rest) := blocks (List.length (x d ++ p)) 64 (x d ++ p) in
  mk (fold_left block1 bs (h d)) rest (uint64 (len d + Z.of_nat (List.length p))).

(** [checkSum]: the padding of SHA-1, then the eight words big-endian. *)
Definition checkSum (d : digest) : list byte :=
  let t := if len d mod 64 <? 56 then 56 - len d mod 64 else 64 + 56 - len d mod 64 in
  let padlen := [x80] ++ repeat x00 (Z.to_nat (t - 1))
                ++ binary.BigEndian_PutUint64 (uint64 (Z.shiftl (len d) 3)) in
  flat_map binary.BigEndian_PutUint32 (h (Write d padlen)).

Definition Sum (d : digest) (b : list byte) : list byte := b ++ checkSum d.

End sha256.

#[export] Instance sha256_Hash : Hash sha256.digest :=
  {| Write := sha256.Write; Sum := sha256.Sum; Size := 32; BlockSize := 64 |}.

(** ** Package [encoding/hex] *)
Module hex.

Definition hextable : string := "0123456789abcdef".

(** [hextable[i]]; the index is a nibble, always below 16. *)
Definition digit (i : Z) : ascii :=
  match String.get (Z.to_nat i) hextable with
  | Some c => c
  | None => zero
  end.

(** [hex.EncodeToString]: two digits per byte, high nibble first. *)
Fixpoint EncodeToString (src : list byte) : string :=
  match src with
  | [] => EmptyString
  | v :: rest =>
      String (digit (Z.shiftr (byte_val v) 4))
             (String (digit (Z.land (byte_val v) 0x0f)) (EncodeToString rest))
  end.

End hex.

(* ------------------------------------------------------------------ *)
(** ** Memory

    A [hash.Hash] value is a pointer to a digest object that [Write]
    mutates.  The heap lists the objects allocated so far; a reference is an
    index into it.  Computations thread the heap and fail ([None]) on a
    reference that was never allocated. *)
Record object := Obj {
  obj_type : Type;
  obj_Hash : Hash obj_type;
  obj_val : obj_type
}.

Definition heap := list object.
Definition ref := nat.

Definition M (A : Type) : Type := heap -> option (A * heap).

Definition ret {A : Type} (a : A) : M A := fun hp => Some (a, hp).

Definition bind {A B : Type} (m : M A) (k : A -> M B) : M B :=
  fun hp => match m hp with
            | Some (a, hp') => k a hp'
            | None => None
            end.

Declare Scope heap_scope.
Delimit Scope heap_scope with heap.
Notation "x <- m ;; k" := (bind m (fun x => k))
  (at level 61, m at next level, right associativity) : heap_scope.
Notation "m ;; k" := (bind m (fun _ => k))
  (at level 61, right associativity) : heap_scope.

Fixpoint store (r : ref) (o : object) (hp : heap) : heap :=
  match hp, r with
  | [], _ => []
  | _ :: rest, O => o :: rest
  | o' :: rest, S r' => o' :: store r' o rest
  end.

(** Allocation of a fresh object, as done by [md5.New()], [sha1.New()] and
    [sha256.New()]. *)
Definition new {D : Type} `{Hash D} (d : D) : M ref :=
  fun hp => Some (List.length hp, hp ++ [Obj D _ d]).

(** [alg.Write(p)] *)
Definition hash_Write (alg : ref) (p : list byte) : M unit :=
  fun hp => match nth_error hp alg with
            | Some (Obj D H d) => Some (tt, store alg (Obj D H (Write d p)) hp)
            | None => None
            end.

(** [alg.Sum(b)] *)
Definition hash_Sum (alg : ref) (b : list byte) : M (list byte) :=
  fun hp => match nth_error hp alg with
            | Some (Obj D H d) => Some (Sum d b, hp)
            | None => None
            end.

(* ------------------------------------------------------------------ *)
(** ** The digest functions of [util.go] *)

Local Open Scope heap_scope.

Definition calcHash (alg : ref) (data : list byte) : M string :=
  hash_Write alg data ;;
  sum <- hash_Sum alg [] ;;
  ret (hex.EncodeToString sum).

Definition GetMD5Hash (data : list byte) : M string :=
  alg <- new md5.New ;; calcHash alg data.

Definition GetSHA1Hash (data : list byte) : M string :=
  alg <- new sha1.New ;; calcHash alg data.

Definition GetSHA256Hash (data : list byte) : M string :=
  alg <- new sha256.New ;; calcHash alg data.

Local Close Scope heap_scope.

(* ------------------------------------------------------------------ *)
(** ** Package [unicode/utf8] *)
Module utf8.

(** A [rune] is an [int32] code point. *)
Definition rune := Z.

Definition RuneError : rune := 0xFFFD.
Definition RuneSelf : Z := 0x80.

Definition maskx := 0x3F.
Definition mask2 := 0x1F.
Definition mask3 := 0x0F.
Definition mask4 := 0x07.
Definition locb := 0x80.
Definition hicb := 0xBF.

(** The codes of the table [first]: [xx] invalid, [as] ASCII, otherwise the
    low bits give the size and the high bits index [acceptRanges]. *)
Definition xx := 0xF1.
Definition as_ := 0xF0.
Definition s1 := 0x02.
Definition s2 := 0x13.
Definition s3 := 0x03.
Definition s4 := 0x23.
Definition s5 := 0x34.
Definition s6 := 0x04.
Definition s7 := 0x44.

(** [first[p0]]: information about the first byte of an encoding. *)
Definition first (p0 : Z) : Z :=
  if p0 <? 0x80 then as_
  else if p0 <? 0xC2 then xx
  else if p0 <? 0xE0 then s1
  else if p0 =? 0xE0 then s2
  else if p0 <? 0xED then s3
  else if p0 =? 0xED then s4
  else if p0 <? 0xF0 then s3
  else if p0 =? 0xF0 then s5
  else if p0 <? 0xF4 then s6
  else if p0 =? 0xF4 then s7
  else xx.

(** [acceptRanges[i]]: the accepted range of the second byte. *)
Definition acceptRanges (i : Z) : Z * Z :=
  match i with
  | 0 => (locb, hicb)
  | 1 => (0xA0, hicb)
  | 2 => (locb, 0x9F)
  | 3 => (0x90, hicb)
  | 4 => (locb, 0x8F)
  | _ => (0, 0)
  end.

(** [utf8.DecodeRune]: the first rune of [p] and its width in bytes;
    [(RuneError, 0)] on an empty slice and [(RuneError, 1)] on an invalid
    encoding. *)
Definition DecodeRune (p : list byte) : rune * nat :=
  match p with
  | [] => (RuneError, 0%nat)
  | c0 :: t0 =>
      let p0 := byte_val c0 in
      let x := first p0 in
      if as_ <=? x then
        ((if Z.testbit x 0 then RuneError else p0), 1%nat)
      else
        let sz := Z.land x 7 in
        let '(lo, hi) := acceptRanges (Z.shiftr x 4) in
        if len p <? sz then (RuneError, 1%nat)
        else
          match t0 with
          | [] => (RuneError, 1%nat)
          | c1 :: t1 =>
              let b1 := byte_val c1 in
              if (b1 <? lo) || (hi <? b1) then (RuneError, 1%nat)
              else if sz <=? 2 then
                (Z.lor (Z.shiftl (Z.land p0 mask2) 6) (Z.land b1 maskx), 2%nat)
              else
                match t1 with
                | [] => (RuneError, 1%nat)
                | c2 :: t2 =>
                    let b2 := byte_val c2 in
                    if (b2 <? locb) || (hicb <? b2) then (RuneError, 1%nat)
                    else if sz <=? 3 then
                      (Z.lor (Z.lor (Z.shiftl (Z.land p0 mask3) 12)
                                    (Z.shiftl (Z.land b1 maskx) 6))
                             (Z.land b2 maskx), 3%nat)
                    else
                      match t2 with
                      | [] => (RuneError, 1%nat)
                      | c3 :: _ =>
                          let b3 := byte_val c3 in
                          if (b3 <? locb) || (hicb <? b3) then (RuneError, 1%nat)
                          else
                            (Z.lor (Z.lor (Z.shiftl (Z.land p0 mask4) 18)
                                          (Z.shiftl (Z.land b1 maskx) 12))
                                   (Z.lor (Z.shiftl (Z.land b2 maskx) 6)
                                          (Z.land b3 maskx)), 4%nat)
                      end
                end
          end
  end.

(** The decoding loop [for len(p) > 0 { r, size := DecodeRune(p); p = p[size:] }]:
    every rune with its width.  Each step consumes at least one byte, so
    [fuel = len(p)] steps are enough. *)
Fixpoint decode (fuel : nat) (p : list byte) : list (rune * nat) :=
  match fuel, p with
  | _, [] => []
  | O, _ => []
  | S fuel', _ =>
      let '(r, size) := DecodeRune p in
      (r, size) :: decode fuel' (skipn size p)
  end.

Definition runes (p : list byte) : list rune :=
  map fst (decode (List.length p) p).

(** [utf8.Valid]: no step of the decoding loop meets an invalid encoding,
    which [DecodeRune] reports as [(RuneError, 1)]. *)
Definition Valid (p : list byte) : bool :=
  forallb (fun rs => negb ((fst rs =? RuneError) && (snd rs =? 1)%nat))
          (decode (List.length p) p).

End utf8.

(** ** Package [unicode]

    The range tables [unicode.L] (letters) and [unicode.N] (numbers) are
    data of the Go standard library; the functions below take them as a
    parameter, given by their membership tests. *)
Module unicode.

Record Tables := {
  L : utf8.rune -> bool;
  N : utf8.rune -> bool
}.

Definition in_ranges (ranges : list (Z * Z)) (r : utf8.rune) : bool :=
  existsb (fun lh => (fst lh <=? r) && (r <=? snd lh)) ranges.

(** The two tables restricted to the Latin-1 code points [U+0000..U+00FF]. *)
Definition Latin1 : Tables := {|
  L := in_ranges [(0x41, 0x5A); (0x61, 0x7A); (0xAA, 0xAA); (0xB5, 0xB5);
                  (0xBA, 0xBA); (0xC0, 0xD6); (0xD8, 0xF6); (0xF8, 0xFF)];
  N := in_ranges [(0x30, 0x39); (0xB2, 0xB3); (0xB9, 0xB9); (0xBC, 0xBE)]
|}.

End unicode.

(** ** Package [regexp/syntax]

    The regular expressions and the part of the Perl-flavoured parser that
    the patterns of [util.go] use: literals, [^], [$], bracketed classes
    with escaped punctuation, ranges and one-letter [\p] classes, and the
    postfix operators.  Anything else is refused ([None]). *)
Module syntax.

Import utf8.

Inductive table := pL | pN.

Inductive class_item :=
| Range (lo hi : rune)
| Table (t : table).

#[local] Unset Elimination Schemes.
Inductive Regexp :=
| OpEmptyMatch
| OpLiteral (r : rune)
| OpCharClass (class : list class_item)
| OpBeginText
| OpEndText
| OpStar (sub : Regexp)
| OpPlus (sub : Regexp)
| OpQuest (sub : Regexp)
| OpConcat (subs : list Regexp).
#[local] Set Elimination Schemes.

Definition chr (c : ascii) : rune := Z.of_N (N_of_ascii c).

Definition isalnum (c : rune) : bool :=
  ((chr "0" <=? c) && (c <=? chr "9"))
  || ((chr "A" <=? c) && (c <=? chr "Z"))
  || ((chr "a" <=? c) && (c <=? chr "z")).

(** [parseClassChar]: one character of a class, possibly escaped.  An
    escaped non-word ASCII character is itself; other escapes are not
    covered here. *)
Definition parseClassChar (s : list rune) : option (rune * list rune) :=
  match s with
  | [] => None
  | c :: rest =>
      if c =? chr "\" then
        match rest with
        | c' :: rest' =>
            if (c' <? RuneSelf) && negb (isalnum c') then Some (c', rest') else None
        | [] => None
        end
      else Some (c, rest)
  end.

(** The one-letter Unicode classes [\pL] and [\pN]. *)
Definition unicodeTable (name : rune) : option table :=
  if name =? chr "L" then Some pL
  else if name =? chr "N" then Some pN
  else None.

(** The loop of [parseClass], after the opening bracket: [first] tells
    that no item was read yet (a closing bracket is then a literal). *)
Fixpoint parseClassItems (fuel : nat) (t : list rune) (first : bool)
    (class : list class_item) : option (list class_item * list rune) :=
  match fuel with
  | O => None
  | S fuel' =>
      match t with
      | [] => None
      | c :: rest =>
          if (c =? chr "]") && negb first then Some (class, rest)
          else if (c =? chr "[") && (match rest with c' :: _ :: _ => c' =? chr ":" | _ => false end)
          then None
          else if (c =? chr "\") && (match rest with c' :: _ => (c' =? chr "p") | _ => false end)
          then
            match rest with
            | _ :: name :: rest' =>
                match unicodeTable name with
                | Some tb => parseClassItems fuel' rest' false (class ++ [Table tb])
                | None => None
                end
            | _ => None
            end
          else
            match parseClassChar t with
            | None => None
            | Some (lo, t1) =>
                match t1 with
                | d :: (c' :: _) as t2 =>
                    if (d =? chr "-") && negb (c' =? chr "]") then
                      match parseClassChar t2 with
                      | Some (hi, t3) =>
                          if hi <? lo then None
                          else parseClassItems fuel' t3 false (class ++ [Range lo hi])
                      | None => None
                      end
                    else parseClassItems fuel' t1 false (class ++ [Range lo lo])
                | _ => parseClassItems fuel' t1 false (class ++ [Range lo lo])
                end
            end
      end
  end.

(** [parseClass]: a bracketed class; negated classes are not covered. *)
Definition parseClass (fuel : nat) (t : list rune) : option (list class_item * list rune) :=
  match t with
  | c :: _ => if c =? chr "^" then None else parseClassItems fuel t true []
  | [] => None
  end.

(** A postfix operator applies to the last expression on the stack. *)
Definition repeat_op (op : Regexp -> Regexp) (stack : list Regexp) : option (list Regexp) :=
  match rev stack with
  | sub :: before => Some (rev before ++ [op sub])
  | [] => None
  end.

(** The main loop of [Parse] under the flags [syntax.Perl] (one-line mode:
    [^] and [$] are the beginning and the end of the text).  [repeated]
    tells that the last token was a postfix operator: Perl does not allow
    stacking them. *)
Fixpoint parseLoop (fuel : nat) (t : list rune) (repeated : bool)
    (stack : list Regexp) : option Regexp :=
  match fuel with
  | O => None
  | S fuel' =>
      match t with
      | [] => Some (OpConcat stack)
      | c :: rest =>
          if c =? chr "^" then parseLoop fuel' rest false (stack ++ [OpBeginText])
          else if c =? chr "$" then parseLoop fuel' rest false (stack ++ [OpEndText])
          else if c =? chr "[" then
            match parseClass fuel' rest with
            | Some (class, rest') =>
                parseLoop fuel' rest' false (stack ++ [OpCharClass class])
            | None => None
            end
          else if (c =? chr "*") || (c =? chr "+") || (c =? chr "?") then
            if repeated then None
            else
              let op := if c =? chr "*" then OpStar
                        else if c =? chr "+" then OpPlus else OpQuest in
              match repeat_op op stack with
              | Some stack' =>
                  match rest with
                  | q :: rest' =>
                      if q =? chr "?" then parseLoop fuel' rest' true stack'
                      else parseLoop fuel' rest true stack'
                  | [] => parseLoop fuel' rest true stack'
                  end
              | None => None
              end
          else if (c =? chr "(") || (c =? chr ")") || (c =? chr "|")
                  || (c =? chr ".") || (c =? chr "{") || (c =? chr "\")
          then None
          else parseLoop fuel' rest false (stack ++ [OpLiteral c])
      end
  end.

(** [syntax.Parse(s, syntax.Perl)] *)
Definition Parse (s : string) : option Regexp :=
  let t := runes (list_byte_of_string s) in
  parseLoop (S (List.length t)) t false [].

End syntax.

(** ** Package [regexp] *)
Module regexp.

Import utf8 syntax.

(** [regexp.MustCompile]: the parsed expression; [None] stands for the
    panic on a pattern that does not parse. *)
Definition MustCompile (str : string) : option Regexp := Parse str.

Section Matching.

Variable U : unicode.Tables.

Definition in_item (r : rune) (it : class_item) : bool :=
  match it with
  | Range lo hi => (lo <=? r) && (r <=? hi)
  | Table pL => unicode.L U r
  | Table pN => unicode.N U r
  end.

Definition in_class (class : list class_item) (r : rune) : bool :=
  existsb (in_item r) class.

(** The loop of a starred expression: a match may end here ([k]), or after
    one more iteration of the sub-expression [msub] from where it ends.  An
    iteration that consumes nothing is not repeated, so [fuel = len(s)]
    iterations are enough. *)
Fixpoint star_loop (msub : bool -> list rune -> (bool -> list rune -> bool) -> bool)
    (k : bool -> list rune -> bool) (fuel : nat) (at_begin : bool)
    (s : list rune) : bool :=
  k at_begin s ||
  match fuel with
  | O => false
  | S fuel' =>
      msub at_begin s
        (fun b' s' =>
           (List.length s' <? List.length s)%nat && star_loop msub k fuel' b' s')
  end.

(** Matching [re] at the current position: [at_begin] tells that the
    position is the beginning of the text, [s] is the text from the position
    on, and [k] is asked about every position where a match of [re] can
    end. *)
Fixpoint matches (re : Regexp) (at_begin : bool) (s : list rune)
    (k : bool -> list rune -> bool) {struct re} : bool :=
  match re with
  | OpEmptyMatch => k at_begin s
  | OpLiteral c =>
      match s with
      | r :: rest => (r =? c) && k false rest
      | [] => false
      end
  | OpCharClass class =>
      match s with
      | r :: rest => in_class class r && k false rest
      | [] => false
      end
  | OpBeginText => at_begin && k at_begin s
  | OpEndText =>
      match s with
      | [] => k at_begin s
      | _ :: _ => false
      end
  | OpQuest sub => matches sub at_begin s k || k at_begin s
  | OpStar sub => star_loop (matches sub) k (List.length s) at_begin s
  | OpPlus sub =>
      matches sub at_begin s
        (fun b1 s1 => star_loop (matches sub) k (List.length s1) b1 s1)
  | OpConcat subs =>
      (fix concat (subs : list Regexp) (b : bool) (s : list rune) : bool :=
         match subs with
         | [] => k b s
         | sub :: subs' => matches sub b s (fun b' s' => concat subs' b' s')
         end) subs at_begin s
  end.

(** The unanchored search: a match may start at any position. *)
Fixpoint search (re : Regexp) (at_begin : bool) (s : list rune) : bool :=
  matches re at_begin s (fun _ _ => true)
  || match s with
     | [] => false
     | _ :: rest => search re false rest
     end.

(** [re.Match(b)]: whether the byte slice contains any match of [re].  The
    text is read rune by rune with [utf8.DecodeRune]. *)
Definition Match (re : Regexp) (b : list byte) : bool :=
  search re true (runes b).

End Matching.

End regexp.

(* ------------------------------------------------------------------ *)
(** ** The name validators of [util.go] *)

(** The two patterns, as the regular expressions the Go literals denote
    (the second literal is an interpreted string: each [\\] in it is one
    backslash of the pattern). *)
Definition validFuncName : option syntax.Regexp :=
  regexp.MustCompile "^[\pL\pN_\?@$\(\)]+$".

Definition validDosName : option syntax.Regexp :=
  regexp.MustCompile "^[\pL\pN!//$%&'\(\)`\-@^_\{\}~+,.;=\[\]]+$".

Section Validators.

Variable U : unicode.Tables.

Definition isValidFuncName (name : list byte) : bool :=
  match validFuncName with
  | Some re => regexp.Match U re name
  | None => false
  end.

Definition isValidDosFilename (name : list byte) : bool :=
  match validDosName with
  | Some re => regexp.Match U re name
  | None => false
  end.

End Validators.

(* ------------------------------------------------------------------ *)
(** ** Package [github.com/pkg/errors] *)
Module errors.

(** An error value: one created elsewhere, known by its message, or one of
    the two wrappers of the package. *)
Inductive error :=
| fundamental (msg : string)
| withMessage (cause : error) (msg : string)
| withStack (err : error) (stack : list Z).

(** [callers()]: the program counters of the call stack, which no function
    here inspects. *)
Definition callers : list Z := [].

(** [errors.Wrap(err, message)]; [nil] is [None]. *)
Definition Wrap (err : option error) (message : string) : option error :=
  match err with
  | None => None
  | Some e => Some (withStack (withMessage e message) callers)
  end.

(** The method [Unwrap] of the wrappers. *)
Definition Unwrap (e : error) : option error :=
  match e with
  | fundamental _ => None
  | withMessage cause _ => Some cause
  | withStack err _ => Some err
  end.

(** [errors.Cause]: the innermost error. *)
Fixpoint Cause (e : error) : error :=
  match e with
  | fundamental _ => e
  | withMessage cause _ => Cause cause
  | withStack err _ => Cause err
  end.

(** The method [Error]. *)
Fixpoint Error (e : error) : string :=
  match e with
  | fundamental msg => msg
  | withMessage cause msg => (msg ++ ": " ++ Error cause)%string
  | withStack err _ => Error err
  end.

End errors.

(* ------------------------------------------------------------------ *)
(** ** [GetFuzzyHash] *)

Section FuzzyHash.

(** [ssdeep.FuzzyBytes], of [github.com/glaslos/ssdeep]: the hash, or an
    error. *)
Variable FuzzyBytes : list byte -> string * option errors.error.

Definition GetFuzzyHash (data : list byte) : string * option errors.error :=
  let '(ssdp, err) := FuzzyBytes data in
  match err with
  | Some _ => (EmptyString, errors.Wrap err "fail to calc fuzzy hash")
  | None => (ssdp, None)
  end.

End FuzzyHash.

(* ------------------------------------------------------------------ *)
(** ** The small helpers of [util.go] *)

(** [max] and [min] on [uint32]. *)
Definition max (x y : Z) : Z := if y <? x then x else y.

Definition min (x y : Z) : Z := if x <? y then x else y.

(** [PowerOfTwo]: [(val != 0) && (val&(val-1)) == 0x0], the subtraction
    being the one of [uint32]. *)
Definition PowerOfTwo (val : Z) : bool :=
  negb (val =? 0) && (Z.land val (uint32 (val - 1)) =? 0).

(** [contains]: the loop returns at the first element equal to [str]. *)
Fixpoint contains (str : string) (list : list string) : bool :=
  match list with
  | [] => false
  | l :: rest => if String.eqb l str then true else contains str rest
  end.

(* ================================================================== *)
(** * Vocabulary of the statements *)

(** ** Buffers *)

(** The 256 byte values, each once, in increasing order. *)
Definition all_bytes : list byte :=
  flat_map (fun n => match Byte.of_nat n with Some b => [b] | None => [] end)
           (seq 0 256).

(** A buffer that holds [counts b] copies of every byte value [b], in
    increasing order of the values. *)
Definition fill (counts : byte -> Z) : list byte :=
  flat_map (fun b => repeat b (Z.to_nat (counts b))) all_bytes.

(** A buffer of 102,400,001 bytes: 400,001 zero bytes, then 400,000 copies
    of each of the other 255 values. *)
Definition near_uniform_counts (b : byte) : Z :=
  match b with
  | x00 => 400001
  | _ => 400000
  end.

Definition near_uniform_buffer : list byte := fill near_uniform_counts.

(** The sum of a list of integers. *)
Definition sumZ (l : list Z) : Z := fold_right Z.add 0 l.

(** ** Digest strings *)

(** A lowercase hexadecimal digit: ['0'..'9'] or ['a'..'f']. *)
Definition is_lower_hex_digit (c : ascii) : bool :=
  let n := N_of_ascii c in
  ((48 <=? n) && (n <=? 57) || (97 <=? n) && (n <=? 102))%N.

Fixpoint string_forallb (f : ascii -> bool) (s : string) : bool :=
  match s with
  | EmptyString => true
  | String c s' => f c && string_forallb f s'
  end.

Definition is_lower_hex (s : string) : bool := string_forallb is_lower_hex_digit s.

(** The value a computation returns when started in the heap [hp], if it
    does not fail. *)
Definition result {A : Type} (m : M A) (hp : heap) : option A :=
  option_map fst (m hp).

(** ** Characters *)

(** The characters the two validators accept, in the words of their
    description: a Unicode letter, a Unicode number, or one of the listed
    punctuation characters. *)
Definition func_name_punct : list utf8.rune :=
  map syntax.chr ["_"; "?"; "@"; "$"; "("; ")"]%char.

Definition dos_name_punct : list utf8.rune :=
  map syntax.chr ["!"; "/"; "$"; "%"; "&"; "'"; "("; ")"; "`"; "-"; "@"; "^";
                  "_"; "{"; "}"; "~"; "+"; ","; "."; ";"; "="; "["; "]"]%char.

Definition allowed (U : unicode.Tables) (punct : list utf8.rune) (r : utf8.rune) : Prop :=
  unicode.L U r = true \/ unicode.N U r = true \/ In r punct.

(** The punctuation of the DOS pattern as written: the slash stands twice. *)
Definition dos_name_punct_written : list utf8.rune :=
  map syntax.chr ["!"; "/"; "/"; "$"; "%"; "&"; "'"; "("; ")"; "`"; "-"; "@"; "^";
                  "_"; "{"; "}"; "~"; "+"; ","; "."; ";"; "="; "["; "]"]%char.

(** The expression both patterns parse to, [^[class]+$], and its class:
    the two tables and one single-character range per punctuation
    character. *)
Definition anchored_plus (class : list syntax.class_item) : syntax.Regexp :=
  syntax.OpConcat
    [syntax.OpBeginText; syntax.OpPlus (syntax.OpCharClass class); syntax.OpEndText].

Definition class_of (punct : list utf8.rune) : list syntax.class_item :=
  [syntax.Table syntax.pL; syntax.Table syntax.pN]
  ++ map (fun c => syntax.Range c c) punct.

(** Facts of the Unicode tables that the examples rely on. *)
Definition ascii_letters_are_letters (U : unicode.Tables) : Prop :=
  forall r, 0x41 <= r <= 0x5A \/ 0x61 <= r <= 0x7A -> unicode.L U r = true.

Definition ascii_digits_are_numbers (U : unicode.Tables) : Prop :=
  forall r, 0x30 <= r <= 0x39 -> unicode.N U r = true.

Definition neither_letter_nor_number (U : unicode.Tables) (r : utf8.rune) : Prop :=
  unicode.L U r = false /\ unicode.N U r = false.

(** The control characters (category Cc): [U+0000..U+001F] and
    [U+007F..U+009F]. *)
Definition is_control (r : utf8.rune) : Prop :=
  0 <= r <= 0x1F \/ 0x7F <= r <= 0x9F.

(** ** Hexadecimal digits *)

(** The value of a hexadecimal digit, [0] for any other character. *)
Definition hex_value (c : ascii) : Z :=
  let n := Z.of_N (N_of_ascii c) in
  if (48 <=? n) && (n <=? 57) then n - 48
  else if (97 <=? n) && (n <=? 102) then n - 87
  else 0.

(** The bytes that a string of hexadecimal digits spells, two digits per
    byte. *)
Fixpoint hex_bytes (s : string) : list byte :=
  match s with
  | String hi (String lo rest) =>
      byte_of (16 * hex_value hi + hex_value lo) :: hex_bytes rest
  | _ => []
  end.

(* ================================================================== *)
(** * Properties *)

(** ** IEEE 754 facts: the quotient of a converted integer by itself *)

(** The number of binary digits of a mantissa. *)
Lemma digits2_pos_size p : digits2_pos p = Pos.size p.
Proof. induction p; simpl; congruence. Qed.

Lemma digits2_bounds p :
  2 ^ (Zpos (digits2_pos p) - 1) <= Zpos p < 2 ^ Zpos (digits2_pos p).
Proof.
  rewrite digits2_pos_size.
  pose proof (Pos.size_le p) as Hle. pose proof (Pos.size_gt p) as Hgt.
  apply Pos2Z.pos_le_pos in Hle. apply Pos2Z.pos_lt_pos in Hgt.
  rewrite Pos2Z.inj_pow in Hle, Hgt.
  assert (E : 2 ^ Z.pos (Pos.size p) = 2 * 2 ^ (Z.pos (Pos.size p) - 1)).
  { rewrite <- Z.pow_succ_r by lia. f_equal. lia. }
  change (Z.pos p~0) with (2 * Z.pos p) in Hle. lia.
Qed.

(** Shifting a rounding record right halves its mantissa. *)
Lemma shr_1_m mrs : 0 <= shr_m mrs -> shr_m (shr_1 mrs) = shr_m mrs / 2.
Proof.
  destruct mrs as [m r s]; simpl.
  destruct m as [|[p|p|]|p]; simpl; intros H; try reflexivity; try lia.
  - rewrite Pos2Z.inj_xI. apply Z.div_unique with (r := 1); lia.
  - rewrite Pos2Z.inj_xO. apply Z.div_unique with (r := 0); lia.
Qed.

Lemma iter_pos_nat {A} (f : A -> A) n : forall x,
  SpecFloat.iter_pos f n x = Nat.iter (Pos.to_nat n) f x.
Proof.
  induction n as [n IH|n IH|]; intros x; cbn [SpecFloat.iter_pos].
  - rewrite !IH, Pos2Nat.inj_xI.
    replace (S (2 * Pos.to_nat n))%nat with (Pos.to_nat n + (Pos.to_nat n + 1))%nat by lia.
    rewrite !Nat.iter_add. reflexivity.
  - rewrite !IH, Pos2Nat.inj_xO.
    replace (2 * Pos.to_nat n)%nat with (Pos.to_nat n + Pos.to_nat n)%nat by lia.
    rewrite Nat.iter_add. reflexivity.
  - reflexivity.
Qed.

Lemma iter_shr_1_m k : forall mrs, 0 <= shr_m mrs ->
  shr_m (Nat.iter k shr_1 mrs) = shr_m mrs / 2 ^ Z.of_nat k.
Proof.
  induction k as [|k IH]; intros mrs Hm.
  - simpl. now rewrite Z.div_1_r.
  - rewrite Nat.iter_succ_r, IH by (rewrite shr_1_m by assumption; apply Z.div_pos; lia).
    rewrite shr_1_m by assumption.
    rewrite Z.div_div by (try apply Z.pow_pos_nonneg; lia).
    rewrite Nat2Z.inj_succ, Z.pow_succ_r by lia. reflexivity.
Qed.

Lemma shr_spec mrs e n : 0 <= shr_m mrs -> 0 <= n ->
  shr_m (fst (shr mrs e n)) = shr_m mrs / 2 ^ n /\ snd (shr mrs e n) = e + n.
Proof.
  intros Hm Hn. destruct n as [|p|p]; simpl.
  - rewrite Z.div_1_r. lia.
  - rewrite iter_pos_nat, iter_shr_1_m, positive_nat_Z by assumption. tauto.
  - lia.
Qed.

(** Rounding to nearest keeps the mantissa or adds one. *)
Lemma round_nearest_even_bounds m l :
  m <= round_nearest_even m l <= m + 1.
Proof. destruct l as [|[]]; simpl; try destruct (Z.even m); lia. Qed.

(** The exponent of the last place, in the range of the normal numbers. *)
Lemma fexp_normal e : -1021 <= e -> fexp prec emax e = e - 53.
Proof. unfold fexp, SpecFloat.emin, prec, emax. lia. Qed.

Lemma pow2_split a b : 0 <= b <= a -> 2 ^ a = 2 ^ b * 2 ^ (a - b).
Proof. intros H. rewrite <- Z.pow_add_r by lia. f_equal. lia. Qed.

(** Alignment of a mantissa of [d >= 53] digits: its low [d - 53] digits are
    shifted out. *)
Lemma shr_fexp_spec m e l d :
  0 < m -> Zdigits2 m = d -> 53 <= d -> -1021 <= d + e ->
  let '(mrs, e') := shr_fexp prec emax m e l in
  shr_m mrs = m / 2 ^ (d - 53) /\ e' = e + (d - 53).
Proof.
  intros Hm Hd H53 He. unfold shr_fexp. rewrite Hd, fexp_normal by lia.
  replace (d + e - 53 - e) with (d - 53) by lia.
  destruct (shr _ e (d - 53)) as [mrs e'] eqn:E.
  pose proof (shr_spec (shr_record_of_loc m l) e (d - 53)) as S.
  rewrite E in S. simpl in S.
  assert (Hr : shr_m (shr_record_of_loc m l) = m) by (destruct l as [|[]]; reflexivity).
  rewrite Hr in S. apply S; lia.
Qed.

Lemma div_pow2_bounds m d k :
  0 <= k <= d - 1 -> 2 ^ (d - 1) <= m < 2 ^ d ->
  2 ^ (d - 1 - k) <= m / 2 ^ k < 2 ^ (d - k).
Proof.
  intros Hk Hm.
  assert (Hp : 0 < 2 ^ k) by (apply Z.pow_pos_nonneg; lia).
  rewrite (pow2_split (d - 1) k), (pow2_split d k) in Hm by lia.
  split.
  - apply Z.div_le_lower_bound; lia.
  - apply Z.div_lt_upper_bound; lia.
Qed.

Lemma digits2_unique q d :
  2 ^ (d - 1) <= Zpos q <= 2 ^ d -> 0 < d ->
  d <= Zpos (digits2_pos q) <= d + 1.
Proof.
  intros Hq Hd. pose proof (digits2_bounds q) as Hb.
  set (dq := Zpos (digits2_pos q)) in *.
  split.
  - apply Z.nlt_ge. intros C.
    assert (2 ^ dq <= 2 ^ (d - 1)) by (apply Z.pow_le_mono_r; lia). lia.
  - apply Z.nlt_ge. intros C.
    assert (2 ^ (d + 1) <= 2 ^ (dq - 1)) by (apply Z.pow_le_mono_r; lia).
    assert (2 ^ d < 2 ^ (d + 1)) by (apply Z.pow_lt_mono_r; lia). lia.
Qed.

(** Rounding a mantissa of at least 53 digits gives a finite number with the
    same sign, as long as the value is in the range of the normal numbers. *)
Lemma binary_round_aux_finite s mx ex lx :
  53 <= Zpos (digits2_pos mx) ->
  -1021 <= Zpos (digits2_pos mx) + ex <= 1023 ->
  exists m e, binary_round_aux prec emax s (Zpos mx) ex lx = S754_finite s m e.
Proof.
  intros Hd He. unfold binary_round_aux.
  set (d := Zpos (digits2_pos mx)) in *.
  pose proof (shr_fexp_spec (Zpos mx) ex lx d) as S1.
  destruct (shr_fexp prec emax (Zpos mx) ex lx) as [mrs' e'].
  destruct S1 as [Hm' He']; try lia; try reflexivity.
  pose proof (div_pow2_bounds (Zpos mx) d (d - 53)) as Hlo.
  rewrite <- Hm' in Hlo.
  replace (d - 1 - (d - 53)) with 52 in Hlo by lia.
  replace (d - (d - 53)) with 53 in Hlo by lia.
  specialize (Hlo ltac:(lia) (digits2_bounds mx)).
  set (r := round_nearest_even (shr_m mrs') (loc_of_shr_record mrs')).
  pose proof (round_nearest_even_bounds (shr_m mrs') (loc_of_shr_record mrs')) as Hr.
  fold r in Hr.
  assert (Hrpos : 0 < r) by (change (2 ^ 52) with 4503599627370496 in Hlo; lia).
  destruct r as [|q|q] eqn:Eq; try lia.
  pose proof (digits2_unique q 53) as Hdq.
  set (dq := Zpos (digits2_pos q)) in *.
  specialize (Hdq ltac:(change (53 - 1) with 52; lia) ltac:(lia)).
  pose proof (shr_fexp_spec (Zpos q) e' loc_Exact dq) as S2.
  destruct (shr_fexp prec emax (Zpos q) e' loc_Exact) as [mrs'' e''].
  destruct S2 as [Hm'' He'']; try lia; try reflexivity.
  pose proof (div_pow2_bounds (Zpos q) dq (dq - 53) ltac:(lia) (digits2_bounds q)) as Hq.
  rewrite <- Hm'' in Hq.
  replace (dq - 1 - (dq - 53)) with 52 in Hq by lia.
  destruct (shr_m mrs'') as [|m|m]; try (change (2 ^ 52) with 4503599627370496 in Hq; lia).
  replace (e'' <=? emax - prec) with true by (symmetry; apply Z.leb_le; unfold emax, prec; lia).
  eauto.
Qed.

Lemma digits2_pos_iter_xO k : forall p,
  Zpos (digits2_pos (Pos.iter xO p k)) = Zpos (digits2_pos p) + Zpos k.
Proof.
  induction k as [|k IH] using Pos.peano_ind; intros p.
  - simpl. lia.
  - rewrite Pos.iter_succ. simpl. rewrite Pos2Z.inj_succ, IH. lia.
Qed.

(** The same for any mantissa, which [binary_round] first shifts left to 53
    digits when it is shorter. *)
Lemma binary_round_finite s p e :
  -1021 <= Zpos (digits2_pos p) + e <= 1023 ->
  exists m e', binary_round prec emax s p e = S754_finite s m e'.
Proof.
  intros H. unfold binary_round, shl_align.
  rewrite fexp_normal by lia.
  set (d := Zpos (digits2_pos p)) in *.
  destruct (d + e - 53 - e) as [|k|k] eqn:E.
  - apply binary_round_aux_finite; fold d; lia.
  - apply binary_round_aux_finite; fold d; lia.
  - apply binary_round_aux_finite; rewrite digits2_pos_iter_xO; fold d; lia.
Qed.

(** A finite number divided by itself is exactly [1.0]: the quotient of the
    mantissas is a power of two and nothing is rounded off. *)
Lemma SFdiv_self s m e :
  SFdiv prec emax (S754_finite s m e) (S754_finite s m e) = Prim2SF 1.
Proof.
  unfold SFdiv, SFdiv_core_binary.
  rewrite Z.sub_diag, Z.sub_diag.
  change (Z.min (fexp prec emax 0) 0) with (-53).
  change (0 - -53) with 53.
  cbv iota beta.
  rewrite Z.shiftl_mul_pow2 by lia.
  assert (E : Z.div_eucl (Zpos m * 2 ^ 53) (Zpos m) = (2 ^ 53, 0)).
  { pose proof (Z.div_mul (2 ^ 53) (Zpos m) ltac:(lia)) as Hq.
    pose proof (Z.mod_mul (2 ^ 53) (Zpos m) ltac:(lia)) as Hr.
    rewrite (Z.mul_comm (2 ^ 53)) in Hq, Hr.
    unfold Z.div, Z.modulo in Hq, Hr.
    destruct (Z.div_eucl (Zpos m * 2 ^ 53) (Zpos m)) as [q r].
    now subst. }
  rewrite E.
  assert (L : new_location (Zpos m) 0 = loc_Exact).
  { unfold new_location. destruct (Z.even (Zpos m)); reflexivity. }
  rewrite L. destruct s; reflexivity.
Qed.

(** The conversion of a positive [int] is a positive finite number. *)
Lemma of_uint63_finite n :
  0 < n < 2 ^ 63 ->
  exists m e, Prim2SF (of_uint63 (Uint63.of_Z n)) = S754_finite false m e.
Proof.
  intros Hn. rewrite FloatAxioms.of_uint63_spec.
  change (Uint63Axioms.to_Z (of_Z n)) with (Uint63.to_Z (of_Z n)).
  rewrite Uint63.of_Z_spec, Z.mod_small by (change wB with (2 ^ 63); lia).
  destruct n as [|p|p]; try lia. simpl.
  apply binary_round_finite.
  pose proof (digits2_bounds p) as Hb.
  set (d := Zpos (digits2_pos p)) in *.
  assert (d <= 63).
  { apply Z.nlt_ge. intros C.
    assert (2 ^ 63 <= 2 ^ (d - 1)) by (apply Z.pow_le_mono_r; lia). lia. }
  lia.
Qed.

(** [float64(n) / float64(n) == 1.0] for every positive [int] [n]. *)
Lemma div_self_of_uint63 n :
  0 < n < 2 ^ 63 ->
  (of_uint63 (Uint63.of_Z n) / of_uint63 (Uint63.of_Z n))%float = 1%float.
Proof.
  intros Hn. apply Prim2SF_inj. rewrite FloatAxioms.div_spec.
  destruct (of_uint63_finite n Hn) as (m & e & ->).
  apply SFdiv_self.
Qed.

(** ** The occurrence counts *)

Lemma wrap_int_small z : - 2 ^ 63 <= z < 2 ^ 63 -> wrap_int z = z.
Proof. intros H. unfold wrap_int. rewrite Z.mod_small; lia. Qed.

Lemma float64_of_int_pos n :
  0 < n -> float64_of_int n = of_uint63 (Uint63.of_Z n).
Proof.
  intros H. unfold float64_of_int.
  destruct (Z.eqb_spec n (- 2 ^ 63)) as [E|_]; [lia|].
  destruct (Z.ltb_spec n 0); [lia|reflexivity].
Qed.

Lemma length_incr_at i : forall occ, List.length (incr_at i occ) = List.length occ.
Proof. induction i; intros [|x occ]; simpl; auto. Qed.

Lemma nth_incr_at i : forall occ j,
  (i < List.length occ)%nat ->
  nth j (incr_at i occ) 0 =
  if (j =? i)%nat then wrap_int (nth i occ 0 + 1) else nth j occ 0.
Proof.
  induction i as [|i IH]; intros [|x occ] j Hi; simpl in *; try lia.
  - destruct j; reflexivity.
  - destruct j; [reflexivity|]. apply IH. lia.
Qed.

(** After the first loop, entry [int(b)] holds the number of occurrences of
    the byte [b], as long as the counts stay within the range of [int]. *)
Lemma fold_incr_at_count (data : list byte) : forall occ,
  List.length occ = 256%nat ->
  (forall j, 0 <= nth j occ 0) ->
  (forall j, nth j occ 0 + len data < 2 ^ 63) ->
  forall b : byte,
    nth (Byte.to_nat b)
        (fold_left (fun o c => incr_at (Byte.to_nat c) o) data occ) 0
    = nth (Byte.to_nat b) occ 0 + Z.of_nat (count_occ byte_eq_dec data b)
  /\ List.length (fold_left (fun o c => incr_at (Byte.to_nat c) o) data occ) = 256%nat.
Proof.
  induction data as [|c data IH]; intros occ Hlen Hnn Hb b.
  - simpl. split; [lia|assumption].
  - cbn [fold_left].
    assert (Hc : (Byte.to_nat c < List.length occ)%nat)
      by (pose proof (Byte.to_nat_bounded c); lia).
    assert (Hw : wrap_int (nth (Byte.to_nat c) occ 0 + 1) = nth (Byte.to_nat c) occ 0 + 1).
    { apply wrap_int_small. specialize (Hnn (Byte.to_nat c)).
      specialize (Hb (Byte.to_nat c)). unfold len in Hb. cbn [List.length] in Hb. lia. }
    destruct (IH (incr_at (Byte.to_nat c) occ)) with (b := b) as [IH1 IH2].
    + now rewrite length_incr_at.
    + intros j. rewrite nth_incr_at by assumption.
      destruct (j =? Byte.to_nat c)%nat; [rewrite Hw; specialize (Hnn (Byte.to_nat c)); lia|apply Hnn].
    + intros j. rewrite nth_incr_at by assumption.
      specialize (Hb j). unfold len in *. cbn [List.length] in Hb.
      destruct (Nat.eqb_spec j (Byte.to_nat c)) as [->|_]; [rewrite Hw|]; lia.
    + split; [|exact IH2]. rewrite IH1, nth_incr_at by assumption.
      cbn [count_occ]. destruct (byte_eq_dec c b) as [->|Hne].
      * rewrite Nat.eqb_refl, Hw. lia.
      * destruct (Nat.eqb_spec (Byte.to_nat b) (Byte.to_nat c)) as [E|_]; [|reflexivity].
        exfalso. apply Hne.
        pose proof (Byte.of_to_nat b) as Eb. pose proof (Byte.of_to_nat c) as Ec.
        rewrite E in Eb. congruence.
Qed.

Lemma count_occurences_spec (data : list byte) :
  len data < 2 ^ 63 ->
  List.length (count_occurences data) = 256%nat /\
  forall b : byte,
    nth (Byte.to_nat b) (count_occurences data) 0
    = Z.of_nat (count_occ byte_eq_dec data b).
Proof.
  intros H. unfold count_occurences, occurences_zero.
  assert (Hz : forall j, nth j (repeat 0 256) 0 = 0) by (intros j; apply nth_repeat).
  split.
  - apply (fold_incr_at_count data (repeat 0 256)) with (b := x00);
      try reflexivity; intros j; rewrite Hz; lia.
  - intros b.
    destruct (fold_incr_at_count data (repeat 0 256)) with (b := b) as [E _];
      try reflexivity; try (intros j; rewrite Hz; lia).
    rewrite E, Hz. lia.
Qed.

(** Every index below 256 is [int(b)] for a byte [b]. *)
Lemma index_is_byte j : (j < 256)%nat -> exists b : byte, Byte.to_nat b = j.
Proof.
  intros H. destruct (Byte.of_nat j) as [b|] eqn:E.
  - exists b. now apply Byte.to_of_nat.
  - pose proof (Byte.to_of_nat_option_map j) as M. rewrite E in M. simpl in M.
    destruct (Nat.leb_spec j 255); [discriminate|lia].
Qed.

(** ** The entropy loop *)

Section EntropyLoop.

Variable Log2 : float -> float.

Lemma fold_entropy_zero n (occ : list Z) :
  Forall (fun o => entropy_step Log2 n 0%float o = 0%float) occ ->
  fold_left (entropy_step Log2 n) occ 0%float = 0%float.
Proof.
  induction 1 as [|o occ Ho _ IH]; simpl; [reflexivity|].
  rewrite Ho. exact IH.
Qed.

Lemma entropy_step_skip n e o : o <= 0 -> entropy_step Log2 n e o = e.
Proof. intros H. unfold entropy_step. destruct (Z.ltb_spec 0 o); [lia|reflexivity]. Qed.

Lemma entropy_step_all (H1 : Log2 1%float = 0%float) n :
  0 < n < 2 ^ 63 -> entropy_step Log2 n 0%float n = 0%float.
Proof.
  intros Hn. unfold entropy_step.
  destruct (Z.ltb_spec 0 n); [|lia].
  rewrite float64_of_int_pos, div_self_of_uint63 by lia.
  cbv zeta. rewrite H1. reflexivity.
Qed.

Lemma fold_entropy_ext n (f : float -> float) (occ : list Z) :
  (forall e o, In o occ -> entropy_step Log2 n e o = f e) ->
  forall e, fold_left (entropy_step Log2 n) occ e
            = fold_left (fun e' _ => f e') occ e.
Proof.
  induction occ as [|o occ IH]; intros H e; simpl; [reflexivity|].
  rewrite H by now left. apply IH. intros e' o' Ho'. apply H. now right.
Qed.

End EntropyLoop.

Lemma len_repeat {A} (a : A) N : len (repeat a N) = Z.of_nat N.
Proof. unfold len. now rewrite repeat_length. Qed.

(** C4. [GetEntropy] of the empty buffer is exactly [0.0], and so is
    [GetEntropy] of a buffer of [N > 0] copies of one byte value ([N]
    within the range of [int], as the length of a slice is).  The only fact
    used of [math.Log2] is [Log2(1) = 0]; the one product, [1 * 0], is
    exact, so fusing it with the subtraction would not change the result. *)
Theorem GetEntropy_empty_and_constant (Log2 : float -> float) :
  Log2 1%float = 0%float ->
  GetEntropy Log2 [] = 0%float /\
  forall (b : byte) (N : nat),
    (0 < N)%nat -> Z.of_nat N < 2 ^ 63 ->
    GetEntropy Log2 (repeat b N) = 0%float.
Proof.
  intros H1. split; [reflexivity|].
  intros b N HN Hmax. unfold GetEntropy. rewrite len_repeat.
  destruct (Z.eqb_spec (Z.of_nat N) 0) as [E|_]; [lia|].
  destruct (count_occurences_spec (repeat b N)) as [Hlen Hnth];
    [rewrite len_repeat; exact Hmax|].
  apply fold_entropy_zero, Forall_forall. intros o Ho.
  apply (In_nth _ _ 0) in Ho as (j & Hj & <-).
  rewrite Hlen in Hj. destruct (index_is_byte j Hj) as [b' <-].
  rewrite Hnth. destruct (byte_eq_dec b' b) as [->|Hne].
  - rewrite count_occ_repeat_eq by reflexivity.
    apply entropy_step_all; [exact H1|lia].
  - rewrite count_occ_repeat_neq by assumption.
    apply entropy_step_skip. reflexivity.
Qed.

(** The portable [math.Log2] is exact at 1, and three copies of ['A'] have
    entropy zero. *)
Lemma GetEntropy_empty_and_constant_witness :
  GetEntropy math.Log2 [] = 0%float /\
  GetEntropy math.Log2 (repeat "A"%byte 3) = 0%float.
Proof.
  destruct (GetEntropy_empty_and_constant math.Log2) as [H0 Hrep].
  - vm_compute. reflexivity.
  - split; [exact H0|].
    apply (Hrep "A"%byte 3%nat); [lia | reflexivity].
Defined.

(** C5. A buffer of length 256 that holds every byte value exactly once
    has entropy exactly [8.0]: each probability is exactly [1/256].  The
    only fact used of [math.Log2] is [Log2(2^-8) = -8]; every product
    [2^-8 * -8] and every partial sum is exact. *)
Theorem GetEntropy_each_byte_once (Log2 : float -> float) :
  Log2 0x1p-8%float = (-8)%float ->
  forall data : list byte,
    List.length data = 256%nat ->
    (forall b : byte, count_occ byte_eq_dec data b = 1%nat) ->
    GetEntropy Log2 data = 8%float.
Proof.
  intros H8 data Hlen Hcount.
  assert (Hl : len data = 256) by (unfold len; rewrite Hlen; reflexivity).
  destruct (count_occurences_spec data) as [Hocc Hnth]; [rewrite Hl; reflexivity|].
  assert (E : count_occurences data = repeat 1 256).
  { apply (nth_ext _ _ 0 0); [rewrite Hocc; reflexivity|].
    intros j Hj. rewrite Hocc in Hj. rewrite nth_repeat_lt by assumption.
    destruct (index_is_byte j Hj) as [b <-]. now rewrite Hnth, Hcount. }
  unfold GetEntropy. rewrite Hl, E. cbn [Z.eqb].
  rewrite (fold_entropy_ext Log2 256 (fun e => (e - 0x1p-8 * (-8))%float)).
  - vm_compute. reflexivity.
  - intros e o Ho. apply repeat_spec in Ho. subst o.
    unfold entropy_step. cbn [Z.ltb Z.compare].
    change (float64_of_int 1 / float64_of_int 256)%float with 0x1p-8%float.
    cbv zeta. now rewrite H8.
Qed.

(** The portable [math.Log2] gives [Log2(2^-8) = -8], and the 256 byte
    values in increasing order have entropy [8.0]. *)
Lemma GetEntropy_each_byte_once_witness :
  GetEntropy math.Log2 all_bytes = 8%float.
Proof.
  apply GetEntropy_each_byte_once.
  - vm_compute. reflexivity.
  - reflexivity.
  - intros b. destruct b; vm_compute; reflexivity.
Defined.

(** ** Buffers given by their byte counts *)

Lemma count_occ_all_bytes (b : byte) : count_occ byte_eq_dec all_bytes b = 1%nat.
Proof. destruct b; vm_compute; reflexivity. Qed.

Lemma nth_all_bytes (b : byte) : nth (Byte.to_nat b) all_bytes x00 = b.
Proof. destruct b; reflexivity. Qed.

Lemma count_occ_flat_map_repeat (g : byte -> nat) (b : byte) (l : list byte) :
  count_occ byte_eq_dec (flat_map (fun c => repeat c (g c)) l) b
  = (g b * count_occ byte_eq_dec l b)%nat.
Proof.
  induction l as [|c l IH]; cbn [flat_map count_occ]; [lia|].
  rewrite count_occ_app, IH. destruct (byte_eq_dec c b) as [->|Hne].
  - rewrite count_occ_repeat_eq by reflexivity. lia.
  - rewrite count_occ_repeat_neq by congruence. lia.
Qed.

Lemma len_flat_map_repeat (counts : byte -> Z) (l : list byte) :
  (forall b, 0 <= counts b) ->
  len (flat_map (fun c => repeat c (Z.to_nat (counts c))) l)
  = fold_right Z.add 0 (map counts l).
Proof.
  intros Hnn. unfold len. induction l as [|c l IH]; [reflexivity|].
  cbn [flat_map map fold_right].
  rewrite length_app, repeat_length, Nat2Z.inj_add, IH, Z2Nat.id by apply Hnn.
  reflexivity.
Qed.

(** The occurrence counts of [fill counts] are [counts], in the order of the
    byte values. *)
Lemma count_occurences_fill (counts : byte -> Z) :
  (forall b, 0 <= counts b) ->
  fold_right Z.add 0 (map counts all_bytes) < 2 ^ 63 ->
  len (fill counts) = fold_right Z.add 0 (map counts all_bytes) /\
  count_occurences (fill counts) = map counts all_bytes.
Proof.
  intros Hnn Hsum.
  assert (Hlen : len (fill counts) = fold_right Z.add 0 (map counts all_bytes))
    by (apply len_flat_map_repeat, Hnn).
  split; [exact Hlen|].
  destruct (count_occurences_spec (fill counts)) as [H256 Hnth]; [rewrite Hlen; exact Hsum|].
  apply (nth_ext _ _ 0 0); [rewrite H256, length_map; reflexivity|].
  intros j Hj. rewrite H256 in Hj. destruct (index_is_byte j Hj) as [b <-].
  rewrite Hnth. unfold fill. rewrite count_occ_flat_map_repeat, count_occ_all_bytes.
  rewrite Nat.mul_1_r, Z2Nat.id by apply Hnn.
  rewrite (nth_indep _ 0 (counts x00)) by (rewrite length_map; exact Hj).
  now rewrite map_nth, nth_all_bytes.
Qed.

(** The value on [near_uniform_buffer], with the portable [math.Log2] and
    every operation rounded on its own: one unit in the last place above
    [8.0]. *)
Lemma GetEntropy_near_uniform_buffer :
  GetEntropy math.Log2 near_uniform_buffer = 0x1.0000000000001p+3%float.
Proof.
  destruct (count_occurences_fill near_uniform_counts) as [Hlen Hocc].
  - intros b. destruct b; discriminate.
  - vm_compute. reflexivity.
  - unfold GetEntropy, near_uniform_buffer. rewrite Hlen, Hocc.
    vm_compute. reflexivity.
Qed.


(** ** The entropy in exact arithmetic *)

Lemma sumZ_incr_at i : forall occ,
  (i < List.length occ)%nat ->
  wrap_int (nth i occ 0 + 1) = nth i occ 0 + 1 ->
  sumZ (incr_at i occ) = sumZ occ + 1.
Proof.
  unfold sumZ. induction i as [|i IH]; intros [|x occ] Hi Hw; simpl in *; try lia.
  rewrite IH; [lia|lia|exact Hw].
Qed.

(** The counts add up to the length of the buffer. *)
Lemma fold_incr_at_sum (data : list byte) : forall occ,
  List.length occ = 256%nat ->
  (forall j, 0 <= nth j occ 0) ->
  (forall j, nth j occ 0 + len data < 2 ^ 63) ->
  sumZ (fold_left (fun o c => incr_at (Byte.to_nat c) o) data occ)
  = sumZ occ + len data.
Proof.
  induction data as [|c data IH]; intros occ Hlen Hnn Hb.
  - unfold len. simpl. lia.
  - cbn [fold_left].
    assert (Hc : (Byte.to_nat c < List.length occ)%nat)
      by (pose proof (Byte.to_nat_bounded c); lia).
    assert (Hw : wrap_int (nth (Byte.to_nat c) occ 0 + 1) = nth (Byte.to_nat c) occ 0 + 1).
    { apply wrap_int_small. specialize (Hnn (Byte.to_nat c)).
      specialize (Hb (Byte.to_nat c)). unfold len in Hb. cbn [List.length] in Hb. lia. }
    rewrite IH.
    + rewrite sumZ_incr_at by assumption. unfold len. cbn [List.length]. lia.
    + now rewrite length_incr_at.
    + intros j. rewrite nth_incr_at by assumption.
      destruct (j =? Byte.to_nat c)%nat; [rewrite Hw; specialize (Hnn (Byte.to_nat c)); lia|apply Hnn].
    + intros j. rewrite nth_incr_at by assumption.
      specialize (Hb j). unfold len in *. cbn [List.length] in Hb.
      destruct (Nat.eqb_spec j (Byte.to_nat c)) as [->|_]; [rewrite Hw|]; lia.
Qed.

Lemma count_occurences_sum (data : list byte) :
  len data < 2 ^ 63 ->
  sumZ (count_occurences data) = len data /\
  Forall (fun o => 0 <= o) (count_occurences data).
Proof.
  intros H. split.
  - unfold count_occurences, occurences_zero.
    rewrite fold_incr_at_sum.
    + change (sumZ (repeat 0%Z 256)) with 0%Z. lia.
    + reflexivity.
    + intros j. rewrite nth_repeat. lia.
    + intros j. rewrite nth_repeat. lia.
  - destruct (count_occurences_spec data H) as [H256 Hnth].
    apply Forall_forall. intros o Ho.
    apply (In_nth _ _ 0) in Ho as (j & Hj & <-).
    rewrite H256 in Hj. destruct (index_is_byte j Hj) as [b <-].
    rewrite Hnth. lia.
Qed.

Lemma sumZ_bounds (l : list Z) :
  Forall (fun o => 0 <= o) l ->
  0 <= sumZ l /\ Forall (fun o => o <= sumZ l) l.
Proof.
  unfold sumZ. induction 1 as [|o l Ho _ [IH0 IH]]; cbn [fold_right].
  - split; [lia|constructor].
  - split; [lia|]. constructor; [lia|].
    apply Forall_forall. intros o' Ho'. rewrite Forall_forall in IH.
    specialize (IH o' Ho'). lia.
Qed.

Local Open Scope R_scope.

Lemma ln_le_sub_1 (y : R) : 0 < y -> ln y <= y - 1.
Proof.
  intros Hy. pose proof (exp_ineq1_le (ln y)) as H.
  rewrite exp_ln in H by assumption. lra.
Qed.

Lemma ln_2_pos : 0 < ln 2.
Proof. pose proof ln_lt_2. lra. Qed.

Lemma ln_256 : ln 256 = 8 * ln 2.
Proof.
  replace 256 with (2 ^ 8) by (simpl; lra).
  rewrite ln_pow by lra. simpl. lra.
Qed.

(** One term of the sum, for a frequency [0 < p <= 1]: it is not negative,
    and Gibbs' inequality bounds it against the uniform distribution on 256
    values. *)
Lemma term_bounds (p : R) :
  0 < p <= 1 ->
  0 <= - (p * log2_R p) <= 8 * p + (/ 256 - p) / ln 2.
Proof.
  intros [Hp0 Hp1]. unfold log2_R, Rdiv.
  pose proof ln_2_pos as H2.
  assert (HI : 0 < / ln 2) by now apply Rinv_0_lt_compat.
  assert (HI1 : ln 2 * / ln 2 = 1) by (apply Rinv_r; lra).
  pose proof (ln_le_sub_1 p Hp0) as HL.
  assert (Hq : 0 < / (256 * p)) by (apply Rinv_0_lt_compat; lra).
  pose proof (ln_le_sub_1 _ Hq) as HU.
  rewrite ln_Rinv, ln_mult, ln_256 in HU by lra.
  assert (Hpq : p * / (256 * p) = / 256) by (field; lra).
  set (L := ln p) in *. set (I := / ln 2) in *. set (Q := / (256 * p)) in *.
  assert (HpL : p * L <= 0) by nra.
  assert (HpU : - (p * L) <= 8 * ln 2 * p + / 256 - p) by nra.
  split.
  - assert (p * L * I <= 0) by nra. lra.
  - assert (- (p * L) * I <= (8 * ln 2 * p + / 256 - p) * I) by nra. 
    assert ((8 * ln 2 * p + / 256 - p) * I = 8 * p * (ln 2 * I) + (/ 256 - p) * I) by ring.
    rewrite HI1 in *. lra.
Qed.

Lemma frequency_bounds (c n : Z) :
  (0 < c <= n)%Z -> 0 < IZR c / IZR n <= 1.
Proof.
  intros [Hc Hn].
  assert (H0 : 0 < IZR c) by now apply (IZR_lt 0).
  assert (H1 : IZR c <= IZR n) by now apply IZR_le.
  assert (H2 : 0 < IZR n) by lra.
  split.
  - now apply Rdiv_lt_0_compat.
  - apply (Rmult_le_reg_r (IZR n)); [assumption|]. unfold Rdiv.
    rewrite Rmult_assoc, Rinv_l by lra. lra.
Qed.

(** The loop adds one term per count; the running bound keeps track of the
    counts seen ([sumZ]) and of their number. *)
Lemma fold_entropy_R_bounds (n : Z) (occ : list Z) : forall e : R,
  (0 < n)%Z ->
  Forall (fun o => (0 <= o <= n)%Z) occ ->
  e <= fold_left (entropy_step_R n) occ e
    <= e + 8 * (IZR (sumZ occ) / IZR n)
         + (INR (List.length occ) / 256 - IZR (sumZ occ) / IZR n) / ln 2.
Proof.
  intros e Hn H. revert e.
  assert (Hn' : 0 < IZR n) by now apply (IZR_lt 0).
  pose proof ln_2_pos as H2.
  assert (HI : 0 < / ln 2) by now apply Rinv_0_lt_compat.
  induction H as [|o occ [Ho0 Hon] _ IH]; intros e.
  - unfold sumZ. cbn [fold_left fold_right List.length INR]. unfold Rdiv.
    rewrite !Rmult_0_l, Rminus_0_r, Rmult_0_l, Rmult_0_r. lra.
  - cbn [fold_left]. specialize (IH (entropy_step_R n e o)).
    replace (sumZ (o :: occ)) with (o + sumZ occ)%Z by reflexivity.
    rewrite plus_IZR. cbn [List.length]. rewrite S_INR.
    set (S := IZR (sumZ occ)) in *. set (K := INR (List.length occ)) in *.
    unfold entropy_step_R in *. destruct (Z.ltb_spec 0 o) as [Hpos|Hzero].
    + pose proof (term_bounds _ (frequency_bounds o n (conj Hpos Hon))) as [T0 T1].
      cbv zeta in IH |- *. set (p := IZR o / IZR n) in *. set (t := p * log2_R p) in *.
      replace ((IZR o + S) / IZR n) with (p + S / IZR n) by (unfold p; field; lra).
      unfold Rdiv in *.
      replace ((K + 1) * / 256 - (p + S * / IZR n)) with
        ((/ 256 - p) + (K * / 256 - S * / IZR n)) by ring.
      rewrite Rmult_plus_distr_r. lra.
    + assert (o = 0%Z) by lia. subst o. unfold Rdiv in *.
      rewrite Rplus_0_l.
      replace ((K + 1) * / 256 - S * / IZR n) with
        (/ 256 + (K * / 256 - S * / IZR n)) by ring.
      rewrite Rmult_plus_distr_r.
      assert (0 <= / 256 * / ln 2) by (apply Rmult_le_pos; lra). lra.
Qed.

Local Close Scope R_scope.



(** ** The heap: a fresh object is private to the call that allocates it *)

Lemma nth_error_fresh (hp : heap) (o : object) :
  nth_error (hp ++ [o]) (List.length hp) = Some o.
Proof. rewrite nth_error_app2, Nat.sub_diag by lia. reflexivity. Qed.

Lemma store_fresh (hp : heap) (o o' : object) :
  store (List.length hp) o' (hp ++ [o]) = hp ++ [o'].
Proof. induction hp as [|o0 hp IH]; simpl; [reflexivity|]. now rewrite IH. Qed.

(** [calcHash] on a freshly allocated [alg]: the result is the hexadecimal
    form of the digest of [data] alone, whatever the heap holds; the heap
    is extended by the object and otherwise unchanged. *)
Lemma calcHash_new {D : Type} `{HD : Hash D} (d : D) (data : list byte) (hp : heap) :
  bind (new d) (fun alg => calcHash alg data) hp
  = Some (hex.EncodeToString (Sum (Write d data) []),
          hp ++ [Obj D HD (Write d data)]).
Proof.
  unfold bind, new, calcHash, bind, hash_Write, hash_Sum, ret.
  rewrite nth_error_fresh, store_fresh, nth_error_fresh. reflexivity.
Qed.

Lemma GetMD5Hash_run (data : list byte) (hp : heap) :
  GetMD5Hash data hp
  = Some (hex.EncodeToString (md5.Sum (md5.Write md5.New data) []),
          hp ++ [Obj _ md5_Hash (md5.Write md5.New data)]).
Proof. exact (calcHash_new (HD := md5_Hash) md5.New data hp). Qed.

Lemma GetSHA1Hash_run (data : list byte) (hp : heap) :
  GetSHA1Hash data hp
  = Some (hex.EncodeToString (sha1.Sum (sha1.Write sha1.New data) []),
          hp ++ [Obj _ sha1_Hash (sha1.Write sha1.New data)]).
Proof. exact (calcHash_new (HD := sha1_Hash) sha1.New data hp). Qed.

Lemma GetSHA256Hash_run (data : list byte) (hp : heap) :
  GetSHA256Hash data hp
  = Some (hex.EncodeToString (sha256.Sum (sha256.Write sha256.New data) []),
          hp ++ [Obj _ sha256_Hash (sha256.Write sha256.New data)]).
Proof. exact (calcHash_new (HD := sha256_Hash) sha256.New data hp). Qed.

(** C6. On the empty buffer the three digest functions return the
    well-known digests of the empty message, in any heap. *)
Theorem digests_of_empty_buffer (hp : heap) :
  result (GetMD5Hash []) hp = Some "d41d8cd98f00b204e9800998ecf8427e"%string /\
  result (GetSHA1Hash []) hp = Some "da39a3ee5e6b4b0d3255bfef95601890afd80709"%string /\
  result (GetSHA256Hash []) hp
  = Some "e3b0c44298fc1c149afbf4c8996fb92427ae41e4649b934ca495991b7852b855"%string.
Proof.
  unfold result.
  rewrite GetMD5Hash_run, GetSHA1Hash_run, GetSHA256Hash_run. cbn [option_map fst].
  repeat split; f_equal; vm_compute; reflexivity.
Qed.

(** ** The shape of a digest string *)

Lemma length_EncodeToString (src : list byte) :
  String.length (hex.EncodeToString src) = (2 * List.length src)%nat.
Proof. induction src as [|v src IH]; simpl; [reflexivity|]. rewrite IH. lia. Qed.

Lemma hex_digits_of_byte (v : byte) :
  is_lower_hex_digit (hex.digit (Z.shiftr (byte_val v) 4)) = true /\
  is_lower_hex_digit (hex.digit (Z.land (byte_val v) 0x0f)) = true.
Proof. destruct v; split; reflexivity. Qed.

Lemma is_lower_hex_EncodeToString (src : list byte) :
  is_lower_hex (hex.EncodeToString src) = true.
Proof.
  induction src as [|v src IH]; [reflexivity|].
  unfold is_lower_hex in *. cbn [hex.EncodeToString string_forallb].
  destruct (hex_digits_of_byte v) as [-> ->]. exact IH.
Qed.

Lemma length_md5_Sum (d : md5.digest) : List.length (md5.Sum d []) = 16%nat.
Proof.
  unfold md5.Sum, md5.checkSum. cbv zeta.
  destruct (md5.s (md5.Write d _)) as [[[a b] c] e]. reflexivity.
Qed.

Lemma length_sha1_Sum (d : sha1.digest) : List.length (sha1.Sum d []) = 20%nat.
Proof.
  unfold sha1.Sum, sha1.checkSum. cbv zeta.
  destruct (sha1.h (sha1.Write d _)) as [[[[h0 h1] h2] h3] h4]. reflexivity.
Qed.

Lemma length_add_words (hs : list Z) : forall vs,
  List.length (sha256.add_words hs vs) = List.length hs.
Proof. induction hs as [|x hs IH]; intros [|v vs]; simpl; auto. Qed.

Lemma length_sha256_blocks (bs : list (list byte)) : forall st,
  List.length (fold_left sha256.block1 bs st) = List.length st.
Proof.
  induction bs as [|p bs IH]; intros st; cbn [fold_left]; [reflexivity|].
  rewrite IH. apply length_add_words.
Qed.

Lemma length_sha256_Write (d : sha256.digest) (p : list byte) :
  List.length (sha256.h (sha256.Write d p)) = List.length (sha256.h d).
Proof.
  unfold sha256.Write.
  destruct (blocks _ 64 _) as [bs rest]. cbn [sha256.h].
  apply length_sha256_blocks.
Qed.

Lemma length_flat_map_PutUint32 (ws : list Z) :
  List.length (flat_map binary.BigEndian_PutUint32 ws) = (4 * List.length ws)%nat.
Proof. induction ws as [|w ws IH]; simpl; [reflexivity|]. rewrite IH. lia. Qed.

Lemma length_sha256_Sum (data : list byte) :
  List.length (sha256.Sum (sha256.Write sha256.New data) []) = 32%nat.
Proof.
  unfold sha256.Sum, sha256.checkSum. cbv zeta. cbn [app].
  rewrite length_flat_map_PutUint32, !length_sha256_Write. reflexivity.
Qed.

(** C7. For every input buffer, in every heap, each digest function
    returns a string of lowercase hexadecimal digits whose length depends
    on the algorithm only: 32 for MD5, 40 for SHA-1, 64 for SHA-256. *)
Theorem digest_length_and_alphabet (data : list byte) (hp : heap) :
  (exists s, result (GetMD5Hash data) hp = Some s
             /\ String.length s = 32%nat /\ is_lower_hex s = true) /\
  (exists s, result (GetSHA1Hash data) hp = Some s
             /\ String.length s = 40%nat /\ is_lower_hex s = true) /\
  (exists s, result (GetSHA256Hash data) hp = Some s
             /\ String.length s = 64%nat /\ is_lower_hex s = true).
Proof.
  unfold result.
  rewrite GetMD5Hash_run, GetSHA1Hash_run, GetSHA256Hash_run. cbn [option_map fst].
  repeat split; eexists; (split; [reflexivity|]);
    (split; [rewrite length_EncodeToString|apply is_lower_hex_EncodeToString]).
  - now rewrite length_md5_Sum.
  - now rewrite length_sha1_Sum.
  - now rewrite length_sha256_Sum.
Qed.

(** C8. The digest functions are deterministic: on identical input bytes
    each returns the same string, whatever the heaps the two calls start
    from (that is, whatever calls came before) hold.  Each call also leaves
    the objects already in the heap as they were. *)
Theorem digests_deterministic (data1 data2 : list byte) (hp1 hp2 : heap) :
  data1 = data2 ->
  (exists s, result (GetMD5Hash data1) hp1 = Some s
             /\ result (GetMD5Hash data2) hp2 = Some s) /\
  (exists s, result (GetSHA1Hash data1) hp1 = Some s
             /\ result (GetSHA1Hash data2) hp2 = Some s) /\
  (exists s, result (GetSHA256Hash data1) hp1 = Some s
             /\ result (GetSHA256Hash data2) hp2 = Some s) /\
  (forall hp', (option_map snd (GetMD5Hash data1 hp1) = Some hp'
                \/ option_map snd (GetSHA1Hash data1 hp1) = Some hp'
                \/ option_map snd (GetSHA256Hash data1 hp1) = Some hp') ->
               firstn (List.length hp1) hp' = hp1).
Proof.
  intros <-. unfold result.
  rewrite !GetMD5Hash_run, !GetSHA1Hash_run, !GetSHA256Hash_run. cbn [option_map fst snd].
  repeat split; try (eexists; split; reflexivity).
  intros hp' [E|[E|E]]; injection E as <-;
    rewrite firstn_app, Nat.sub_diag, firstn_all; cbn [firstn]; apply app_nil_r.
Qed.

(** Two calls of [GetSHA256Hash] on ["abc"], one in the empty heap and one
    after an MD5 object was allocated, return the same string. *)
Lemma digests_deterministic_witness :
  exists s,
    result (GetSHA256Hash (list_byte_of_string "abc")) [] = Some s /\
    result (GetSHA256Hash (list_byte_of_string "abc")) [Obj _ md5_Hash md5.New] = Some s.
Proof.
  exact (proj1 (proj2 (proj2
    (digests_deterministic (list_byte_of_string "abc") (list_byte_of_string "abc")
                           [] [Obj _ md5_Hash md5.New] eq_refl)))).
Defined.

(** ** Decoding UTF-8 *)

Lemma byte_val_range (c : byte) : 0 <= byte_val c < 256.
Proof. unfold byte_val. pose proof (Byte.to_N_bounded c). lia. Qed.

(** A step of the decoder consumes between one and [len(p)] bytes; an ASCII
    byte among the consumed ones is the decoded rune itself (a multi-byte
    encoding holds no ASCII byte). *)
Lemma DecodeRune_step (c0 : byte) (t : list byte) :
  let '(r, size) := utf8.DecodeRune (c0 :: t) in
  (1 <= size <= List.length (c0 :: t))%nat /\
  (forall c, In c (firstn size (c0 :: t)) -> byte_val c < 0x80 -> r = byte_val c).
Proof.
  unfold utf8.DecodeRune.
  pose proof (byte_val_range c0) as R0.
  set (p0 := byte_val c0) in *.
  destruct (Z.leb_spec utf8.as_ (utf8.first p0)) as [Has|Has].
  { split; [simpl; lia|]. intros c [<-|[]] Hc. fold p0 in Hc |- *.
    unfold utf8.first. destruct (Z.ltb_spec p0 0x80); [reflexivity|lia]. }
  assert (Hp0 : 0x80 <= p0).
  { apply Z.nlt_ge. intros C. unfold utf8.first in Has.
    destruct (Z.ltb_spec p0 0x80); [|lia]. unfold utf8.as_ in Has. lia. }
  destruct (utf8.acceptRanges _) as [lo hi] eqn:Eacc.
  assert (Hlo : 0x80 <= lo).
  { revert Eacc Has. unfold utf8.first, utf8.as_.
    repeat match goal with
           | |- context [if ?b then _ else _] => destruct b
           end; intros Eacc; inversion Eacc; unfold utf8.locb; try lia;
      intros Hx; vm_compute in Hx; discriminate. }
  assert (Hfail : (1 <= 1 <= List.length (c0 :: t))%nat /\
                  (forall c, In c (firstn 1 (c0 :: t)) -> byte_val c < 0x80 ->
                             utf8.RuneError = byte_val c)).
  { split; [simpl; lia|]. intros c [<-|[]] Hc. fold p0 in Hc. lia. }
  destruct (len (c0 :: t) <? Z.land (utf8.first p0) 7); [exact Hfail|].
  destruct t as [|c1 t1]; [exact Hfail|].
  destruct (Z.ltb_spec (byte_val c1) lo) as [|H1]; [exact Hfail|]. cbn [orb].
  destruct (hi <? byte_val c1); [exact Hfail|].
  destruct (Z.land (utf8.first p0) 7 <=? 2).
  { split; [simpl; lia|]. intros c [<-|[<-|[]]] Hc; [fold p0 in Hc|]; lia. }
  destruct t1 as [|c2 t2]; [exact Hfail|].
  destruct (Z.ltb_spec (byte_val c2) utf8.locb) as [|H2]; [exact Hfail|]. cbn [orb].
  unfold utf8.locb in H2.
  destruct (utf8.hicb <? byte_val c2); [exact Hfail|].
  destruct (Z.land (utf8.first p0) 7 <=? 3).
  { split; [simpl; lia|]. intros c [<-|[<-|[<-|[]]]] Hc; [fold p0 in Hc| |]; lia. }
  destruct t2 as [|c3 t3]; [exact Hfail|].
  destruct (Z.ltb_spec (byte_val c3) utf8.locb) as [|H3]; [exact Hfail|]. cbn [orb].
  unfold utf8.locb in H3.
  destruct (utf8.hicb <? byte_val c3); [exact Hfail|].
  split; [simpl; lia|]. intros c [<-|[<-|[<-|[<-|[]]]]] Hc; [fold p0 in Hc| | |]; lia.
Qed.

Lemma decode_cons (fuel : nat) (c0 : byte) (t : list byte) :
  utf8.decode (S fuel) (c0 :: t)
  = utf8.DecodeRune (c0 :: t)
    :: utf8.decode fuel (skipn (snd (utf8.DecodeRune (c0 :: t))) (c0 :: t)).
Proof.
  cbn [utf8.decode]. destruct (utf8.DecodeRune (c0 :: t)) as [r size]. reflexivity.
Qed.

(** An ASCII byte of the input is one of the decoded runes. *)
Lemma ascii_byte_in_runes (fuel : nat) : forall (p : list byte) (c : byte),
  (List.length p <= fuel)%nat -> In c p -> byte_val c < 0x80 ->
  In (byte_val c) (map fst (utf8.decode fuel p)).
Proof.
  induction fuel as [|fuel IH]; intros p c Hf Hin Hc.
  - destruct p; [destruct Hin|simpl in Hf; lia].
  - destruct p as [|c0 t]; [destruct Hin|].
    rewrite decode_cons. pose proof (DecodeRune_step c0 t) as S.
    destruct (utf8.DecodeRune (c0 :: t)) as [r size]. destruct S as [Hsz Hascii].
    cbn [snd map fst].
    rewrite <- (firstn_skipn size (c0 :: t)) in Hin.
    apply in_app_or in Hin as [Hin|Hin].
    + left. now apply Hascii.
    + right. apply IH; try assumption.
      rewrite length_skipn. cbn [List.length] in *. lia.
Qed.

Lemma runes_nonempty (p : list byte) : utf8.runes p = [] <-> p = [].
Proof.
  unfold utf8.runes. destruct p as [|c0 t]; [tauto|].
  cbn [List.length]. rewrite decode_cons. split; discriminate.
Qed.

(** The runes of an ASCII text are its bytes. *)
Lemma runes_repeat_ascii (c : byte) (n : nat) :
  byte_val c < 0x80 -> utf8.runes (repeat c n) = repeat (byte_val c) n.
Proof.
  intros Hc. unfold utf8.runes. rewrite repeat_length.
  induction n as [|n IH]; [reflexivity|].
  cbn [repeat]. rewrite decode_cons.
  assert (E : utf8.DecodeRune (c :: repeat c n) = (byte_val c, 1%nat)).
  { unfold utf8.DecodeRune, utf8.first.
    destruct (Z.ltb_spec (byte_val c) 0x80); [reflexivity|lia]. }
  rewrite E. cbn [snd skipn map fst]. now rewrite IH.
Qed.

(** An invalid encoding shows as the replacement character. *)
Lemma invalid_has_RuneError (p : list byte) :
  utf8.Valid p = false -> In utf8.RuneError (utf8.runes p).
Proof.
  unfold utf8.Valid, utf8.runes. intros H.
  assert (E : existsb (fun rs => (fst rs =? utf8.RuneError) && (snd rs =? 1)%nat)
                      (utf8.decode (List.length p) p) = true).
  { induction (utf8.decode (List.length p) p) as [|rs l IH]; [discriminate|].
    cbn [forallb existsb] in *. apply andb_false_iff in H as [H|H].
    - apply negb_false_iff in H. now rewrite H.
    - rewrite IH by assumption. apply orb_true_r. }
  apply existsb_exists in E as ([r sz] & Hin & Hr).
  apply andb_true_iff in Hr as [Hr _]. apply Z.eqb_eq in Hr. cbn [fst] in Hr. subst r.
  apply in_map_iff. now exists (utf8.RuneError, sz).
Qed.

(** ** Matching an anchored repetition of a class *)

Section AnchoredClass.

Import syntax.

Variable U : unicode.Tables.
Variable class : list class_item.

Lemma star_class_to_end (fuel : nat) : forall (s : list utf8.rune) (b : bool),
  (List.length s <= fuel)%nat ->
  regexp.star_loop (regexp.matches U (OpCharClass class))
    (fun b' s' => regexp.matches U OpEndText b' s' (fun _ _ => true)) fuel b s
  = forallb (regexp.in_class U class) s.
Proof.
  induction fuel as [|fuel IH]; intros [|r rest] b Hlen; cbn [List.length] in Hlen;
    try reflexivity; try lia.
  cbn [regexp.star_loop regexp.matches forallb orb].
  rewrite IH by lia.
  replace (List.length rest <? List.length (r :: rest))%nat with true
    by (symmetry; apply Nat.ltb_lt; simpl; lia).
  reflexivity.
Qed.

Lemma matches_anchored_plus (b : bool) (s : list utf8.rune) :
  regexp.matches U (anchored_plus class) b s (fun _ _ => true)
  = b && match s with [] => false | _ :: _ => forallb (regexp.in_class U class) s end.
Proof.
  unfold anchored_plus. cbn [regexp.matches]. f_equal.
  destruct s as [|r rest]; [reflexivity|]. cbn [forallb]. f_equal.
  apply star_class_to_end. lia.
Qed.

Lemma search_not_at_begin (s : list utf8.rune) :
  regexp.search U (anchored_plus class) false s = false.
Proof.
  induction s as [|r rest IH]; cbn [regexp.search];
    rewrite matches_anchored_plus; [reflexivity|exact IH].
Qed.

Lemma Match_anchored_plus (name : list byte) :
  regexp.Match U (anchored_plus class) name = true <->
  name <> [] /\ Forall (fun r => regexp.in_class U class r = true) (utf8.runes name).
Proof.
  unfold regexp.Match. rewrite <- (runes_nonempty name).
  destruct (utf8.runes name) as [|r rest]; cbn [regexp.search].
  - rewrite matches_anchored_plus. cbn. split; [discriminate|intros [[] _]; reflexivity].
  - rewrite matches_anchored_plus, search_not_at_begin, orb_false_r. cbn [andb].
    rewrite forallb_forall, Forall_forall. split; [split; [discriminate|]|]; tauto.
Qed.

End AnchoredClass.

(** ** The classes of the two patterns *)

Lemma in_class_singletons (U : unicode.Tables) (punct : list utf8.rune) (r : utf8.rune) :
  regexp.in_class U (map (fun c => syntax.Range c c) punct) r = true <-> In r punct.
Proof.
  unfold regexp.in_class. induction punct as [|c punct IH]; cbn [map existsb In].
  - split; [discriminate|tauto].
  - rewrite orb_true_iff, IH. cbn [regexp.in_item].
    rewrite andb_true_iff, !Z.leb_le. intuition lia.
Qed.

Lemma in_class_of (U : unicode.Tables) (punct : list utf8.rune) (r : utf8.rune) :
  regexp.in_class U (class_of punct) r = true <-> allowed U punct r.
Proof.
  unfold class_of, allowed, regexp.in_class.
  cbn [app existsb regexp.in_item].
  rewrite !orb_true_iff. fold (regexp.in_class U (map (fun c => syntax.Range c c) punct) r).
  now rewrite in_class_singletons.
Qed.

(** The pattern of [validFuncName] parses, to [^[class]+$] with the letters,
    the numbers and the six punctuation characters. *)
Lemma validFuncName_parsed :
  validFuncName = Some (anchored_plus (class_of func_name_punct)).
Proof. reflexivity. Qed.

Lemma validDosName_parsed :
  validDosName = Some (anchored_plus (class_of dos_name_punct_written)).
Proof. reflexivity. Qed.

Lemma dos_name_punct_nodup :
  nodup Z.eq_dec dos_name_punct_written = dos_name_punct.
Proof. reflexivity. Qed.

Section ValidatorFacts.

Variable U : unicode.Tables.

Lemma isValidFuncName_iff (name : list byte) :
  isValidFuncName U name = true <->
  name <> [] /\ Forall (allowed U func_name_punct) (utf8.runes name).
Proof.
  unfold isValidFuncName. rewrite validFuncName_parsed, Match_anchored_plus.
  rewrite !Forall_forall. split; intros [Hne H]; (split; [exact Hne|]);
    intros r Hr; apply in_class_of, H, Hr.
Qed.

Lemma isValidDosFilename_iff (name : list byte) :
  isValidDosFilename U name = true <->
  name <> [] /\ Forall (allowed U dos_name_punct) (utf8.runes name).
Proof.
  unfold isValidDosFilename. rewrite validDosName_parsed, Match_anchored_plus.
  assert (E : forall r, allowed U dos_name_punct_written r <-> allowed U dos_name_punct r).
  { intros r. unfold allowed. rewrite <- dos_name_punct_nodup, nodup_In. tauto. }
  rewrite !Forall_forall. split; intros [Hne H]; (split; [exact Hne|]);
    intros r Hr; [apply E, in_class_of, H, Hr | apply in_class_of, E, H, Hr].
Qed.

(** A rune outside the allowed set makes a validator answer [false]. *)
Lemma isValidFuncName_rejects (name : list byte) (r : utf8.rune) :
  In r (utf8.runes name) -> ~ allowed U func_name_punct r ->
  isValidFuncName U name = false.
Proof.
  intros Hin Hno. destruct (isValidFuncName U name) eqn:E; [|reflexivity].
  apply isValidFuncName_iff in E as [_ H]. rewrite Forall_forall in H.
  now destruct (Hno (H r Hin)).
Qed.

Lemma isValidDosFilename_rejects (name : list byte) (r : utf8.rune) :
  In r (utf8.runes name) -> ~ allowed U dos_name_punct r ->
  isValidDosFilename U name = false.
Proof.
  intros Hin Hno. destruct (isValidDosFilename U name) eqn:E; [|reflexivity].
  apply isValidDosFilename_iff in E as [_ H]. rewrite Forall_forall in H.
  now destruct (Hno (H r Hin)).
Qed.

Lemma not_allowed (punct : list utf8.rune) (r : utf8.rune) :
  neither_letter_nor_number U r -> ~ In r punct -> ~ allowed U punct r.
Proof. intros [HL HN] Hp [H|[H|H]]; congruence || tauto. Qed.

End ValidatorFacts.

(** The Latin-1 tables have the facts the examples rely on. *)
Lemma Latin1_letters : ascii_letters_are_letters unicode.Latin1.
Proof.
  intros r H. cbn [unicode.L unicode.Latin1 unicode.in_ranges existsb fst snd].
  rewrite !orb_true_iff, !andb_true_iff, !Z.leb_le. lia.
Qed.

Lemma Latin1_digits : ascii_digits_are_numbers unicode.Latin1.
Proof.
  intros r H. cbn [unicode.N unicode.Latin1 unicode.in_ranges existsb fst snd].
  rewrite !orb_true_iff, !andb_true_iff, !Z.leb_le. lia.
Qed.

Lemma Latin1_controls (r : utf8.rune) :
  is_control r -> neither_letter_nor_number unicode.Latin1 r.
Proof.
  intros H. unfold is_control, neither_letter_nor_number in *.
  cbn [unicode.L unicode.N unicode.Latin1 unicode.in_ranges existsb fst snd].
  rewrite !orb_false_iff, !andb_false_iff, !Z.leb_gt. lia.
Qed.

(** ** The validators *)

(** The runes of the sample tokens. *)
Lemma runes_CreateFileA :
  utf8.runes (list_byte_of_string "CreateFileA")
  = [67; 114; 101; 97; 116; 101; 70; 105; 108; 101; 65].
Proof. vm_compute. reflexivity. Qed.

Lemma runes_foo_bar :
  utf8.runes (list_byte_of_string "foo bar") = [102; 111; 111; 32; 98; 97; 114].
Proof. vm_compute. reflexivity. Qed.

Lemma runes_KERNEL32_DLL :
  utf8.runes (list_byte_of_string "KERNEL32.DLL")
  = [75; 69; 82; 78; 69; 76; 51; 50; 46; 68; 76; 76].
Proof. vm_compute. reflexivity. Qed.

Lemma runes_mangled :
  utf8.runes (list_byte_of_string "?foo@@YAXH@Z")
  = [63; 102; 111; 111; 64; 64; 89; 65; 88; 72; 64; 90].
Proof. vm_compute. reflexivity. Qed.

(** Membership in a list of runes given by value, decided by computation. *)
Ltac not_in_punct :=
  let H := fresh in intros H; vm_compute in H; lia.

(** C2. [isValidFuncName] answers [true] exactly on the non-empty tokens
    whose every character (decoded rune) is a Unicode letter, a Unicode
    number or one of [_ ? @ $ ( )].  In particular ["CreateFileA"] is
    accepted, the empty token is rejected, and ["foo bar"] is rejected for
    its space.  The examples use that the ASCII letters are letters and
    that the space is neither a letter nor a number. *)
Theorem isValidFuncName_spec (U : unicode.Tables) :
  ascii_letters_are_letters U ->
  neither_letter_nor_number U (syntax.chr " ") ->
  (forall name : list byte,
      isValidFuncName U name = true <->
      name <> [] /\ Forall (allowed U func_name_punct) (utf8.runes name)) /\
  isValidFuncName U (list_byte_of_string "CreateFileA") = true /\
  isValidFuncName U [] = false /\
  isValidFuncName U (list_byte_of_string "foo bar") = false.
Proof.
  intros HL Hsp. split; [apply isValidFuncName_iff|]. split; [|split].
  - apply isValidFuncName_iff. split; [discriminate|].
    rewrite runes_CreateFileA.
    repeat (apply Forall_cons || apply Forall_nil); left; apply HL; lia.
  - destruct (isValidFuncName U []) eqn:E; [|reflexivity].
    apply isValidFuncName_iff in E as [E _]. now destruct E.
  - apply (isValidFuncName_rejects U _ (syntax.chr " ")).
    + rewrite runes_foo_bar. right; right; right; left. reflexivity.
    + apply not_allowed; [exact Hsp|not_in_punct].
Qed.

(** With the Latin-1 tables: the two examples, and a mangled C++ name that
    the characterisation accepts. *)
Lemma isValidFuncName_spec_witness :
  isValidFuncName unicode.Latin1 (list_byte_of_string "CreateFileA") = true /\
  isValidFuncName unicode.Latin1 (list_byte_of_string "?foo@@YAXH@Z") = true /\
  isValidFuncName unicode.Latin1 (list_byte_of_string "foo bar") = false.
Proof.
  destruct (isValidFuncName_spec unicode.Latin1) as (Hiff & Hcreate & _ & Hfoo).
  - exact Latin1_letters.
  - split; reflexivity.
  - split; [exact Hcreate|]. split; [|exact Hfoo].
    apply Hiff. split; [discriminate|].
    rewrite runes_mangled.
    repeat (apply Forall_cons || apply Forall_nil);
      first [ left; reflexivity | right; right; vm_compute; intuition reflexivity ].
Defined.

(** C3. [isValidDosFilename] answers [true] exactly on the non-empty
    tokens whose every character is a Unicode letter, a Unicode number or
    one of the listed punctuation characters.  No maximum length is
    enforced: a token of any positive number of ['A'] is accepted.
    ["KERNEL32.DLL"] is accepted.  A token that holds a null byte or an
    ASCII control byte, or whose decoding holds a control character, is
    rejected.  The examples use that the ASCII letters are letters, the
    ASCII digits are numbers, and the control characters are neither. *)
Theorem isValidDosFilename_spec (U : unicode.Tables) :
  ascii_letters_are_letters U ->
  ascii_digits_are_numbers U ->
  (forall r, is_control r -> neither_letter_nor_number U r) ->
  (forall name : list byte,
      isValidDosFilename U name = true <->
      name <> [] /\ Forall (allowed U dos_name_punct) (utf8.runes name)) /\
  isValidDosFilename U (list_byte_of_string "KERNEL32.DLL") = true /\
  (forall n : nat, (0 < n)%nat -> isValidDosFilename U (repeat "A"%byte n) = true) /\
  (forall (name : list byte) (c : byte),
      In c name -> byte_val c <= 0x1F \/ byte_val c = 0x7F ->
      isValidDosFilename U name = false) /\
  (forall (name : list byte) (r : utf8.rune),
      In r (utf8.runes name) -> is_control r ->
      isValidDosFilename U name = false).
Proof.
  intros HL HN Hctl.
  assert (Hrune : forall (name : list byte) (r : utf8.rune),
             In r (utf8.runes name) -> is_control r ->
             isValidDosFilename U name = false).
  { intros name r Hin Hr. apply (isValidDosFilename_rejects U name r Hin).
    apply not_allowed; [now apply Hctl|].
    unfold is_control in Hr. intros H. vm_compute in H. lia. }
  split; [apply isValidDosFilename_iff|]. split; [|split; [|split]].
  - apply isValidDosFilename_iff. split; [discriminate|].
    rewrite runes_KERNEL32_DLL.
    repeat (apply Forall_cons || apply Forall_nil);
      first [ left; apply HL; lia
            | right; left; apply HN; lia
            | right; right; vm_compute; intuition reflexivity ].
  - intros n Hn. apply isValidDosFilename_iff. split.
    + destruct n; [lia|discriminate].
    + rewrite runes_repeat_ascii by (vm_compute; reflexivity).
      apply Forall_forall. intros r Hr. apply repeat_spec in Hr. subst r.
      left. apply HL. vm_compute. left. split; discriminate.
  - intros name c Hin Hc. pose proof (byte_val_range c) as Hrange.
    apply (Hrune name (byte_val c)).
    + apply ascii_byte_in_runes; [apply Nat.le_refl|assumption|lia].
    + unfold is_control. lia.
  - exact Hrune.
Qed.

(** With the Latin-1 tables: the example, a name of 300 characters, and a
    name with a trailing null byte. *)
Lemma isValidDosFilename_spec_witness :
  isValidDosFilename unicode.Latin1 (list_byte_of_string "KERNEL32.DLL") = true /\
  isValidDosFilename unicode.Latin1 (repeat "A"%byte 300) = true /\
  isValidDosFilename unicode.Latin1 (list_byte_of_string "KERNEL32.DLL" ++ [x00]) = false.
Proof.
  destruct (isValidDosFilename_spec unicode.Latin1 Latin1_letters Latin1_digits
              Latin1_controls) as (_ & Hk & Hlong & Hbyte & _).
  split; [exact Hk|]. split.
  - apply Hlong. lia.
  - apply (Hbyte _ x00).
    + apply in_or_app. right. left. reflexivity.
    + left. vm_compute. discriminate.
Defined.

(** C10. Both validators reject every token that is not valid UTF-8: its
    decoding holds the replacement character [U+FFFD], which is in neither
    allowed set (it is neither a letter nor a number). *)
Theorem invalid_utf8_rejected (U : unicode.Tables) :
  neither_letter_nor_number U utf8.RuneError ->
  forall name : list byte,
    utf8.Valid name = false ->
    In utf8.RuneError (utf8.runes name) /\
    isValidFuncName U name = false /\
    isValidDosFilename U name = false.
Proof.
  intros Hrep name Hinv.
  pose proof (invalid_has_RuneError name Hinv) as Hin.
  split; [exact Hin|]. split.
  - apply (isValidFuncName_rejects U name _ Hin).
    apply not_allowed; [exact Hrep|not_in_punct].
  - apply (isValidDosFilename_rejects U name _ Hin).
    apply not_allowed; [exact Hrep|not_in_punct].
Qed.

(** With the Latin-1 tables: a name with the byte [0xFF], which starts no
    encoding. *)
Lemma invalid_utf8_rejected_witness :
  In utf8.RuneError (utf8.runes (list_byte_of_string "Create" ++ [xff])) /\
  isValidFuncName unicode.Latin1 (list_byte_of_string "Create" ++ [xff]) = false /\
  isValidDosFilename unicode.Latin1 (list_byte_of_string "Create" ++ [xff]) = false.
Proof.
  apply (invalid_utf8_rejected unicode.Latin1).
  - split; reflexivity.
  - reflexivity.
Defined.

(** ** Calls in sequence *)

(** Two digest calls give the same two strings in either order. *)
Lemma digest_calls_commute (data1 data2 : list byte) (hp : heap) :
  result (bind (GetMD5Hash data1) (fun a =>
          bind (GetSHA256Hash data2) (fun b => ret (a, b)))) hp
  = result (bind (GetSHA256Hash data2) (fun b =>
            bind (GetMD5Hash data1) (fun a => ret (a, b)))) hp.
Proof.
  unfold result, bind.
  rewrite GetMD5Hash_run, GetSHA256Hash_run, GetSHA256Hash_run, GetMD5Hash_run.
  reflexivity.
Qed.

(** ** [GetFuzzyHash] *)

Lemma Wrap_some (e : errors.error) (message : string) :
  errors.Wrap (Some e) message
  = Some (errors.withStack (errors.withMessage e message) errors.callers).
Proof. reflexivity. Qed.

(** C9. [GetFuzzyHash] returns an error exactly when [ssdeep.FuzzyBytes]
    does.  The error it returns then wraps the one of [FuzzyBytes]: the
    cause is kept under the message ["fail to calc fuzzy hash"], and the
    hash returned with it is empty.  Without an error the hash of
    [FuzzyBytes] is returned unchanged.  The other operations cannot fail:
    the digest functions return a string in every heap, and [GetEntropy]
    and the two validators are total functions into [float64] and [bool]. *)
Theorem GetFuzzyHash_error_iff
    (FuzzyBytes : list byte -> string * option errors.error) (data : list byte) :
  (snd (GetFuzzyHash FuzzyBytes data) <> None <-> snd (FuzzyBytes data) <> None) /\
  (forall cause : errors.error,
      snd (FuzzyBytes data) = Some cause ->
      exists err : errors.error,
        GetFuzzyHash FuzzyBytes data = (EmptyString, Some err) /\
        errors.Unwrap err = Some (errors.withMessage cause "fail to calc fuzzy hash") /\
        errors.Cause err = errors.Cause cause /\
        errors.Error err = ("fail to calc fuzzy hash: " ++ errors.Error cause)%string) /\
  (snd (FuzzyBytes data) = None ->
   GetFuzzyHash FuzzyBytes data = (fst (FuzzyBytes data), None)) /\
  (forall hp : heap,
      (exists s, result (GetMD5Hash data) hp = Some s) /\
      (exists s, result (GetSHA1Hash data) hp = Some s) /\
      (exists s, result (GetSHA256Hash data) hp = Some s)) /\
  (forall Log2 : float -> float, exists v : float, GetEntropy Log2 data = v) /\
  (forall U : unicode.Tables,
      exists b1 b2 : bool, isValidFuncName U data = b1 /\ isValidDosFilename U data = b2).
Proof.
  unfold GetFuzzyHash.
  destruct (FuzzyBytes data) as [ssdp [e|]]; cbn [fst snd];
    (split; [|split; [|split; [|split; [|split]]]]).
  - rewrite Wrap_some. split; discriminate.
  - intros cause [= ->]. rewrite Wrap_some. eexists. repeat split.
  - discriminate.
  - intros hp. unfold result.
    rewrite GetMD5Hash_run, GetSHA1Hash_run, GetSHA256Hash_run. cbn [option_map fst].
    repeat split; eexists; reflexivity.
  - intros Log2. eexists. reflexivity.
  - intros U. do 2 eexists. split; reflexivity.
  - tauto.
  - discriminate.
  - reflexivity.
  - intros hp. unfold result.
    rewrite GetMD5Hash_run, GetSHA1Hash_run, GetSHA256Hash_run. cbn [option_map fst].
    repeat split; eexists; reflexivity.
  - intros Log2. eexists. reflexivity.
  - intros U. do 2 eexists. split; reflexivity.
Qed.

(* ================================================================== *)
(** * Further properties *)

(** ** [max], [min] and [PowerOfTwo] *)

(** X1. [max] and [min] each return one of their arguments, [min] the
    lesser and [max] the greater, so that together they give both
    arguments back; and [min(max(x, lo), hi)] clamps [x] into [lo..hi]. *)
Theorem max_min_clamp (x lo hi : Z) :
  lo <= hi ->
  (max x lo = x \/ max x lo = lo) /\
  (min x hi = x \/ min x hi = hi) /\
  min x lo <= max x lo /\
  min x lo + max x lo = x + lo /\
  lo <= min (max x lo) hi <= hi /\
  (lo <= x <= hi -> min (max x lo) hi = x).
Proof.
  intros H. unfold max, min.
  destruct (Z.ltb_spec lo x), (Z.ltb_spec x hi), (Z.ltb_spec x lo);
    try destruct (Z.ltb_spec lo hi); repeat split; try lia; auto.
Qed.

(** A section's virtual size 0x1234 clamped between the file alignment
    and 0x1000. *)
Lemma max_min_clamp_witness :
  0x200 <= min (max 0x1234 0x200) 0x1000 <= 0x1000.
Proof.
  apply (max_min_clamp 0x1234 0x200 0x1000). lia.
Defined.

Lemma land_double_odd (a b : Z) : Z.land (2 * a) (2 * b + 1) = 2 * Z.land a b.
Proof.
  apply Z.bits_inj'. intros n Hn. rewrite Z.land_spec.
  destruct (Z.eq_dec n 0) as [->|Hne].
  - now rewrite !Z.testbit_even_0.
  - replace n with (Z.succ (n - 1)) by lia.
    rewrite !Z.testbit_even_succ, Z.testbit_odd_succ, Z.land_spec by lia. reflexivity.
Qed.

Lemma land_odd_double (a : Z) : Z.land (2 * a + 1) (2 * a) = 2 * a.
Proof.
  apply Z.bits_inj'. intros n Hn. rewrite Z.land_spec.
  destruct (Z.eq_dec n 0) as [->|Hne].
  - now rewrite Z.testbit_odd_0, Z.testbit_even_0.
  - replace n with (Z.succ (n - 1)) by lia.
    rewrite Z.testbit_even_succ, Z.testbit_odd_succ by lia. apply andb_diag.
Qed.

(** Clearing the lowest set bit leaves nothing exactly for the powers of
    two. *)
Lemma land_pred_pow2 (p : positive) :
  Z.land (Zpos p) (Zpos p - 1) = 0 <-> exists k : Z, 0 <= k /\ Zpos p = 2 ^ k.
Proof.
  induction p as [q IH|q IH|].
  - replace (Zpos q~1 - 1) with (2 * Zpos q) by lia.
    change (Zpos q~1) with (2 * Zpos q + 1). rewrite land_odd_double.
    split; [lia|]. intros (k & Hk & E). exfalso.
    destruct (Z.eq_dec k 0) as [->|Hne]; [simpl in E; lia|].
    replace k with (Z.succ (k - 1)) in E by lia.
    rewrite Z.pow_succ_r in E by lia. lia.
  - replace (Zpos q~0 - 1) with (2 * (Zpos q - 1) + 1) by lia.
    change (Zpos q~0) with (2 * Zpos q). rewrite land_double_odd.
    split.
    + intros H. destruct IH as [IH _].
      destruct IH as (k & Hk & E); [lia|].
      exists (Z.succ k). split; [lia|]. rewrite Z.pow_succ_r by lia. lia.
    + intros (k & Hk & E). destruct IH as [_ IH]. rewrite IH; [reflexivity|].
      destruct (Z.eq_dec k 0) as [->|Hne]; [simpl in E; lia|].
      exists (k - 1). split; [lia|].
      replace k with (Z.succ (k - 1)) in E by lia.
      rewrite Z.pow_succ_r in E by lia. lia.
  - split; [|reflexivity]. intros _. exists 0. split; [lia|reflexivity].
Qed.

Lemma uint32_small (x : Z) : 0 <= x < 2 ^ 32 -> uint32 x = x.
Proof.
  intros H. unfold uint32. change 0xFFFFFFFF with (Z.ones 32).
  rewrite Z.land_ones by lia. apply Z.mod_small. exact H.
Qed.

(** X2. On every [uint32] value, [PowerOfTwo] answers [true] exactly for
    the powers of two [2^0 .. 2^31]; in particular it answers [false]
    for zero, where the subtraction wraps around. *)
Theorem PowerOfTwo_iff (val : Z) :
  0 <= val < 2 ^ 32 ->
  (PowerOfTwo val = true <-> exists k : Z, 0 <= k < 32 /\ val = 2 ^ k).
Proof.
  intros Hval. unfold PowerOfTwo.
  destruct (Z.eqb_spec val 0) as [->|Hne]; cbn [negb andb].
  - split; [discriminate|]. intros (k & Hk & E).
    assert (0 < 2 ^ k) by (apply Z.pow_pos_nonneg; lia). lia.
  - rewrite uint32_small by lia. rewrite Z.eqb_eq.
    destruct val as [|p|p]; try lia. rewrite land_pred_pow2.
    split; intros (k & Hk & E); exists k; (split; [|exact E]); try lia.
    split; [lia|]. apply Z.nle_gt. intros C.
    assert (2 ^ 32 <= 2 ^ k) by (apply Z.pow_le_mono_r; lia). lia.
Qed.

(** The hard-coded file alignment [0x200] is [2^9]. *)
Lemma PowerOfTwo_iff_witness : PowerOfTwo 0x200 = true.
Proof.
  apply (PowerOfTwo_iff 0x200); [lia|]. exists 9. split; [lia|reflexivity].
Defined.

(** ** [contains] *)

(** X3. [contains] answers [true] exactly when the string is an element of
    the list; the empty list holds nothing, and a list put together from
    two holds what either holds. *)
Theorem contains_iff (str : string) (list1 list2 : list string) :
  (contains str list1 = true <-> In str list1) /\
  contains str [] = false /\
  contains str (list1 ++ list2) = contains str list1 || contains str list2.
Proof.
  split; [|split; [reflexivity|]].
  - induction list1 as [|l rest IH]; cbn [contains In]; [split; [discriminate|tauto]|].
    destruct (String.eqb_spec l str) as [->|Hne]; [tauto|].
    rewrite IH. split; [tauto|]. intros [E|H]; [congruence|exact H].
  - induction list1 as [|l rest IH]; cbn [contains app]; [reflexivity|].
    destruct (String.eqb l str); [reflexivity|exact IH].
Qed.

(** ** The occurrence counts and the order of the bytes *)

(** X4. After the first loop of [GetEntropy] the array holds, for every
    byte value, the number of its occurrences in the buffer; no entry is
    negative and the entries add up to the length of the buffer (for a
    buffer whose length is in the range of [int], where no count wraps). *)
Theorem count_occurences_counts (data : list byte) :
  len data < 2 ^ 63 ->
  List.length (count_occurences data) = 256%nat /\
  (forall b : byte,
      nth (Byte.to_nat b) (count_occurences data) 0
      = Z.of_nat (count_occ byte_eq_dec data b)) /\
  Forall (fun o => 0 <= o <= len data) (count_occurences data) /\
  sumZ (count_occurences data) = len data.
Proof.
  intros H.
  destruct (count_occurences_spec data H) as [H256 Hnth].
  destruct (count_occurences_sum data H) as [Hsum Hnn].
  destruct (sumZ_bounds _ Hnn) as [_ Hle]. rewrite Hsum in Hle.
  repeat split; try assumption.
  rewrite Forall_forall in *. intros o Ho. split; [now apply Hnn|now apply Hle].
Qed.

(** The counts of ["MZMZ"]: two for ['M'] and four in all. *)
Lemma count_occurences_counts_witness :
  nth (Byte.to_nat "M"%byte) (count_occurences (list_byte_of_string "MZMZ")) 0
  = Z.of_nat (count_occ byte_eq_dec (list_byte_of_string "MZMZ") "M"%byte) /\
  sumZ (count_occurences (list_byte_of_string "MZMZ")) = 4.
Proof.
  destruct (count_occurences_counts (list_byte_of_string "MZMZ")) as (_ & Hn & _ & Hs).
  - reflexivity.
  - split; [apply Hn|exact Hs].
Defined.

(** Buffers with the same counts have the same array of counts. *)
Lemma count_occurences_ext (data1 data2 : list byte) :
  len data1 < 2 ^ 63 -> len data2 < 2 ^ 63 ->
  (forall b, count_occ byte_eq_dec data1 b = count_occ byte_eq_dec data2 b) ->
  count_occurences data1 = count_occurences data2.
Proof.
  intros H1 H2 Hc.
  destruct (count_occurences_spec data1 H1) as [L1 N1].
  destruct (count_occurences_spec data2 H2) as [L2 N2].
  apply (nth_ext _ _ 0 0); [congruence|].
  intros j Hj. rewrite L1 in Hj. destruct (index_is_byte j Hj) as [b <-].
  now rewrite N1, N2, Hc.
Qed.

(** X5. [GetEntropy] does not depend on the order of the bytes: two
    buffers that are permutations of each other get the same [float64]
    result, bit for bit, whatever [math.Log2] computes. *)
Theorem GetEntropy_permutation (Log2 : float -> float) (data1 data2 : list byte) :
  Permutation data1 data2 ->
  len data1 < 2 ^ 63 ->
  GetEntropy Log2 data1 = GetEntropy Log2 data2.
Proof.
  intros HP Hlen.
  assert (El : len data1 = len data2)
    by (unfold len; now rewrite (Permutation_length HP)).
  unfold GetEntropy. rewrite <- El.
  rewrite (count_occurences_ext data1 data2); [reflexivity|exact Hlen|lia|].
  now apply Permutation_count_occ.
Qed.

(** ["MZ"] followed by ["PE"], and the same four bytes reversed. *)
Lemma GetEntropy_permutation_witness :
  GetEntropy math.Log2 (list_byte_of_string "MZPE")
  = GetEntropy math.Log2 (rev (list_byte_of_string "MZPE")).
Proof.
  apply GetEntropy_permutation.
  - apply Permutation_rev.
  - reflexivity.
Defined.

(** ** The validators on ASCII text *)

(** The runes of an ASCII text are its bytes. *)
Lemma runes_ascii (p : list byte) :
  (forall c, In c p -> byte_val c < 0x80) -> utf8.runes p = map byte_val p.
Proof.
  unfold utf8.runes. induction p as [|c t IH]; intros Hc; [reflexivity|].
  cbn [List.length]. rewrite decode_cons.
  assert (E : utf8.DecodeRune (c :: t) = (byte_val c, 1%nat)).
  { unfold utf8.DecodeRune, utf8.first.
    destruct (Z.ltb_spec (byte_val c) 0x80) as [_|C]; [reflexivity|].
    specialize (Hc c (or_introl eq_refl)). lia. }
  rewrite E. cbn [snd skipn map fst]. rewrite IH; [reflexivity|].
  intros c' Hin. apply Hc. now right.
Qed.

(** X6. On a token of ASCII bytes the validators decide byte by byte:
    the token is accepted exactly when it is not empty and every byte is
    an allowed character.  (A token with other bytes is judged by its
    decoded runes.) *)
Theorem validators_on_ascii (U : unicode.Tables) (name : list byte) :
  (forall c, In c name -> byte_val c < 0x80) ->
  (isValidFuncName U name = true <->
   name <> [] /\ forall c, In c name -> allowed U func_name_punct (byte_val c)) /\
  (isValidDosFilename U name = true <->
   name <> [] /\ forall c, In c name -> allowed U dos_name_punct (byte_val c)).
Proof.
  intros Hascii.
  rewrite isValidFuncName_iff, isValidDosFilename_iff, (runes_ascii name Hascii).
  rewrite !Forall_forall.
  split; (split; intros [Hne H]; (split; [exact Hne|]));
    try (intros c Hc; apply H, in_map, Hc);
    intros r Hr; apply in_map_iff in Hr as (c & <- & Hc); now apply H.
Qed.

(** With the Latin-1 tables, ["_start@4"] is a function name. *)
Lemma validators_on_ascii_witness :
  isValidFuncName unicode.Latin1 (list_byte_of_string "_start@4") = true.
Proof.
  destruct (validators_on_ascii unicode.Latin1 (list_byte_of_string "_start@4"))
    as [[_ H] _].
  - intros c Hc. cbn in Hc.
    repeat (destruct Hc as [<-|Hc]; [reflexivity|]). destruct Hc.
  - apply H. split; [discriminate|].
    intros c Hc. cbn in Hc.
    repeat (destruct Hc as [<-|Hc];
            [first [ left; reflexivity
                   | right; left; reflexivity
                   | right; right; vm_compute; intuition reflexivity ]|]).
    destruct Hc.
Defined.

(** X7. One ASCII byte outside the allowed set is enough for a rejection,
    wherever it stands and whatever the other bytes are: an ASCII byte is
    never part of the encoding of another character. *)
Theorem validators_reject_ascii_byte
    (U : unicode.Tables) (name : list byte) (c : byte) :
  In c name ->
  byte_val c < 0x80 ->
  (~ allowed U func_name_punct (byte_val c) -> isValidFuncName U name = false) /\
  (~ allowed U dos_name_punct (byte_val c) -> isValidDosFilename U name = false).
Proof.
  intros Hin Hc.
  assert (Hr : In (byte_val c) (utf8.runes name))
    by (apply ascii_byte_in_runes; [apply Nat.le_refl|assumption|assumption]).
  split; intros Hno.
  - now apply (isValidFuncName_rejects U name (byte_val c)).
  - now apply (isValidDosFilename_rejects U name (byte_val c)).
Qed.

(** With the Latin-1 tables: a dot in a function name, and a quotation mark
    after two bytes that are no UTF-8 in a file name. *)
Lemma validators_reject_ascii_byte_witness :
  isValidFuncName unicode.Latin1 (list_byte_of_string "std.h") = false /\
  isValidDosFilename unicode.Latin1 ([xff; xfe] ++ [x22]) = false.
Proof.
  split.
  - apply (validators_reject_ascii_byte unicode.Latin1 _ "."%byte).
    + cbn. tauto.
    + reflexivity.
    + intros [H|[H|H]]; [discriminate H|discriminate H|vm_compute in H; lia].
  - apply (validators_reject_ascii_byte unicode.Latin1 _ x22).
    + cbn. tauto.
    + reflexivity.
    + intros [H|[H|H]]; [discriminate H|discriminate H|vm_compute in H; lia].
Defined.

(** ** The digest string spells the digest *)

Lemma hex_byte_round_trip (v : byte) :
  byte_of (16 * hex_value (hex.digit (Z.shiftr (byte_val v) 4))
           + hex_value (hex.digit (Z.land (byte_val v) 0x0f))) = v.
Proof. destruct v; reflexivity. Qed.

Lemma hex_bytes_EncodeToString (src : list byte) :
  hex_bytes (hex.EncodeToString src) = src.
Proof.
  induction src as [|v src IH]; [reflexivity|].
  cbn [hex.EncodeToString hex_bytes]. now rewrite hex_byte_round_trip, IH.
Qed.

(** X8. The string a digest function returns spells the bytes of the
    digest, two lowercase digits each, and nothing is lost: two calls
    return the same string exactly when the digests are the same bytes. *)
Theorem digest_string_spells_digest (data1 data2 : list byte) (hp1 hp2 : heap) :
  (forall s, result (GetMD5Hash data1) hp1 = Some s ->
             hex_bytes s = md5.Sum (md5.Write md5.New data1) []) /\
  (forall s, result (GetSHA1Hash data1) hp1 = Some s ->
             hex_bytes s = sha1.Sum (sha1.Write sha1.New data1) []) /\
  (forall s, result (GetSHA256Hash data1) hp1 = Some s ->
             hex_bytes s = sha256.Sum (sha256.Write sha256.New data1) []) /\
  (result (GetMD5Hash data1) hp1 = result (GetMD5Hash data2) hp2 <->
   md5.Sum (md5.Write md5.New data1) [] = md5.Sum (md5.Write md5.New data2) []) /\
  (result (GetSHA1Hash data1) hp1 = result (GetSHA1Hash data2) hp2 <->
   sha1.Sum (sha1.Write sha1.New data1) [] = sha1.Sum (sha1.Write sha1.New data2) []) /\
  (result (GetSHA256Hash data1) hp1 = result (GetSHA256Hash data2) hp2 <->
   sha256.Sum (sha256.Write sha256.New data1) []
   = sha256.Sum (sha256.Write sha256.New data2) []).
Proof.
  assert (Hinj : forall a b : list byte,
             Some (hex.EncodeToString a) = Some (hex.EncodeToString b) <-> a = b).
  { intros a b. split; [|now intros ->]. intros [= E].
    now rewrite <- (hex_bytes_EncodeToString a), E, hex_bytes_EncodeToString. }
  unfold result.
  rewrite !GetMD5Hash_run, !GetSHA1Hash_run, !GetSHA256Hash_run. cbn [option_map fst].
  repeat split; try (intros s [= <-]; apply hex_bytes_EncodeToString);
    apply Hinj.
Qed.

(** ** Writing in pieces *)

Lemma blocks_fuel (size : nat) : (0 < size)%nat ->
  forall (f1 f2 : nat) (p : list byte),
    (List.length p <= f1)%nat -> (List.length p <= f2)%nat ->
    blocks f1 size p = blocks f2 size p.
Proof.
  intros Hsize. induction f1 as [|f1 IH]; intros f2 p H1 H2.
  - destruct p; [|simpl in H1; lia]. destruct f2; cbn [blocks]; [reflexivity|].
    destruct (Nat.leb_spec size (@List.length byte [])); [simpl in *; lia|reflexivity].
  - destruct f2 as [|f2].
    + destruct p; [|simpl in H2; lia]. cbn [blocks].
      destruct (Nat.leb_spec size (@List.length byte [])); [simpl in *; lia|reflexivity].
    + cbn [blocks]. destruct (Nat.leb_spec size (List.length p)); [|reflexivity].
      rewrite (IH f2); [reflexivity| |]; rewrite length_skipn; lia.
Qed.

(** The blocks of [p ++ q] are the blocks of [p], then the blocks of what
    [p] left over followed by [q]. *)
Lemma blocks_app (size : nat) : (0 < size)%nat ->
  forall (f : nat) (p q : list byte),
    (List.length p <= f)%nat ->
    blocks (List.length (p ++ q)) size (p ++ q)
    = (fst (blocks f size p)
         ++ fst (blocks (List.length (snd (blocks f size p) ++ q)) size
                        (snd (blocks f size p) ++ q)),
       snd (blocks (List.length (snd (blocks f size p) ++ q)) size
                   (snd (blocks f size p) ++ q))).
Proof.
  intros Hsize. induction f as [|f IH]; intros p q Hf.
  - destruct p; [|simpl in Hf; lia]. cbn [blocks fst snd app].
    now destruct (blocks _ size q).
  - cbn [blocks]. destruct (Nat.leb_spec size (List.length p)) as [Hle|Hgt].
    + specialize (IH (skipn size p) q).
      destruct (blocks f size (skipn size p)) as [bs rest] eqn:E. cbn [fst snd] in *.
      assert (Hl : List.length (p ++ q) = S (Nat.pred (List.length (p ++ q))))
        by (rewrite length_app; lia).
      rewrite Hl. cbn [blocks].
      destruct (Nat.leb_spec size (List.length (p ++ q))) as [_|C];
        [|rewrite length_app in C; lia].
      rewrite firstn_app, skipn_app.
      replace (size - List.length p)%nat with 0%nat by lia.
      cbn [firstn skipn]. rewrite app_nil_r.
      rewrite (blocks_fuel size Hsize _ (List.length (skipn size p ++ q)));
        [|rewrite !length_app, length_skipn; lia|apply Nat.le_refl].
      rewrite IH by (rewrite length_skipn; lia). reflexivity.
    + cbn [fst snd app]. now destruct (blocks _ size (p ++ q)).
Qed.

Lemma uint64_add_assoc (x a b : Z) :
  uint64 (uint64 (x + a) + b) = uint64 (x + (a + b)).
Proof.
  unfold uint64. change 0xFFFFFFFFFFFFFFFF with (Z.ones 64).
  rewrite !Z.land_ones by lia. rewrite Zplus_mod_idemp_l. f_equal. lia.
Qed.

Lemma md5_Write_app (d : md5.digest) (a b : list byte) :
  md5.Write (md5.Write d a) b = md5.Write d (a ++ b).
Proof.
  unfold md5.Write at 1 3. rewrite app_assoc.
  rewrite (blocks_app 64 ltac:(lia) (List.length (md5.x d ++ a)) (md5.x d ++ a) b)
    by apply Nat.le_refl.
  unfold md5.Write.
  destruct (blocks (List.length (md5.x d ++ a)) 64 (md5.x d ++ a)) as [bs1 r1].
  cbn [md5.x md5.s md5.len fst snd].
  destruct (blocks (List.length (r1 ++ b)) 64 (r1 ++ b)) as [bs2 r2]. cbn [fst snd].
  rewrite fold_left_app, uint64_add_assoc, length_app, Nat2Z.inj_add. reflexivity.
Qed.

Lemma sha1_Write_app (d : sha1.digest) (a b : list byte) :
  sha1.Write (sha1.Write d a) b = sha1.Write d (a ++ b).
Proof.
  unfold sha1.Write at 1 3. rewrite app_assoc.
  rewrite (blocks_app 64 ltac:(lia) (List.length (sha1.x d ++ a)) (sha1.x d ++ a) b)
    by apply Nat.le_refl.
  unfold sha1.Write.
  destruct (blocks (List.length (sha1.x d ++ a)) 64 (sha1.x d ++ a)) as [bs1 r1].
  cbn [sha1.x sha1.h sha1.len fst snd].
  destruct (blocks (List.length (r1 ++ b)) 64 (r1 ++ b)) as [bs2 r2]. cbn [fst snd].
  rewrite fold_left_app, uint64_add_assoc, length_app, Nat2Z.inj_add. reflexivity.
Qed.

Lemma sha256_Write_app (d : sha256.digest) (a b : list byte) :
  sha256.Write (sha256.Write d a) b = sha256.Write d (a ++ b).
Proof.
  unfold sha256.Write at 1 3. rewrite app_assoc.
  rewrite (blocks_app 64 ltac:(lia) (List.length (sha256.x d ++ a)) (sha256.x d ++ a) b)
    by apply Nat.le_refl.
  unfold sha256.Write.
  destruct (blocks (List.length (sha256.x d ++ a)) 64 (sha256.x d ++ a)) as [bs1 r1].
  cbn [sha256.x sha256.h sha256.len fst snd].
  destruct (blocks (List.length (r1 ++ b)) 64 (r1 ++ b)) as [bs2 r2]. cbn [fst snd].
  rewrite fold_left_app, uint64_add_assoc, length_app, Nat2Z.inj_add. reflexivity.
Qed.

(** Two calls of [calcHash] on the same freshly allocated object. *)
Lemma calcHash_twice {D : Type} `{HD : Hash D} (d : D) (a b : list byte) (hp : heap) :
  (forall d' p q, Write (Write d' p) q = Write d' (p ++ q)) ->
  bind (new d) (fun alg =>
    bind (calcHash alg a) (fun s1 =>
      bind (calcHash alg b) (fun s2 => ret (s1, s2)))) hp
  = Some ((hex.EncodeToString (Sum (Write d a) []),
           hex.EncodeToString (Sum (Write d (a ++ b)) [])),
          hp ++ [Obj D HD (Write d (a ++ b))]).
Proof.
  intros Happ.
  unfold bind, new, calcHash, bind, hash_Write, hash_Sum, ret.
  rewrite nth_error_fresh, store_fresh, nth_error_fresh.
  rewrite nth_error_fresh, store_fresh, nth_error_fresh, Happ. reflexivity.
Qed.

Local Open Scope heap_scope.

(** X9. [calcHash] does not reset its [alg]: called a second time on the
    same hash object it returns the digest of everything written so far,
    that is of the first buffer followed by the second.  (The digest
    functions of the package allocate a fresh object for every call.) *)
Theorem calcHash_accumulates (a b : list byte) (hp : heap) :
  (exists s1 s2,
      result (alg <- new md5.New ;; s1 <- calcHash alg a ;;
              s2 <- calcHash alg b ;; ret (s1, s2)) hp = Some (s1, s2) /\
      result (GetMD5Hash a) hp = Some s1 /\
      result (GetMD5Hash (a ++ b)) hp = Some s2) /\
  (exists s1 s2,
      result (alg <- new sha1.New ;; s1 <- calcHash alg a ;;
              s2 <- calcHash alg b ;; ret (s1, s2)) hp = Some (s1, s2) /\
      result (GetSHA1Hash a) hp = Some s1 /\
      result (GetSHA1Hash (a ++ b)) hp = Some s2) /\
  (exists s1 s2,
      result (alg <- new sha256.New ;; s1 <- calcHash alg a ;;
              s2 <- calcHash alg b ;; ret (s1, s2)) hp = Some (s1, s2) /\
      result (GetSHA256Hash a) hp = Some s1 /\
      result (GetSHA256Hash (a ++ b)) hp = Some s2).
Proof.
  unfold result.
  rewrite !GetMD5Hash_run, !GetSHA1Hash_run, !GetSHA256Hash_run.
  rewrite (calcHash_twice (HD := md5_Hash) md5.New a b hp md5_Write_app).
  rewrite (calcHash_twice (HD := sha1_Hash) sha1.New a b hp sha1_Write_app).
  rewrite (calcHash_twice (HD := sha256_Hash) sha256.New a b hp sha256_Write_app).
  cbn [option_map fst]. repeat split; do 2 eexists; repeat split.
Qed.

Local Close Scope heap_scope.

(** ** IEEE 754 facts: scaling by a power of two *)

(** Alignment in the range of the normal numbers, with the record it
    leaves: the record does not depend on the exponent. *)
Lemma shr_fexp_normal m e l d :
  0 < m -> Zdigits2 m = d -> 53 <= d -> -1021 <= d + e ->
  shr_fexp prec emax m e l
  = (fst (shr (shr_record_of_loc m l) 0 (d - 53)), e + (d - 53)).
Proof.
  intros Hm Hd H53 He. unfold shr_fexp. rewrite Hd, fexp_normal by lia.
  replace (d + e - 53 - e) with (d - 53) by lia.
  unfold shr. destruct (d - 53) as [|k|k] eqn:E; cbn [fst]; f_equal; lia.
Qed.

(** Rounding a mantissa of at least 53 digits: the mantissa of the result
    does not depend on the exponent, which is only shifted. *)
Lemma binary_round_aux_exp s mx lx :
  53 <= Zpos (digits2_pos mx) ->
  exists m k,
    2 ^ 52 <= Zpos m < 2 ^ 53 /\
    Zpos (digits2_pos mx) - 53 <= k <= Zpos (digits2_pos mx) - 52 /\
    forall ex,
      -1021 <= Zpos (digits2_pos mx) + ex <= 1023 ->
      binary_round_aux prec emax s (Zpos mx) ex lx = S754_finite s m (ex + k).
Proof.
  intros Hd. set (d := Zpos (digits2_pos mx)) in *.
  set (R1 := fst (shr (shr_record_of_loc (Zpos mx) lx) 0 (d - 53))).
  assert (Hrec : shr_m (shr_record_of_loc (Zpos mx) lx) = Zpos mx)
    by (destruct lx as [|[]]; reflexivity).
  assert (HR1 : shr_m R1 = Zpos mx / 2 ^ (d - 53)).
  { unfold R1. destruct (shr_spec (shr_record_of_loc (Zpos mx) lx) 0 (d - 53)) as [E _];
      rewrite ?Hrec; try lia. now rewrite E, Hrec. }
  pose proof (div_pow2_bounds (Zpos mx) d (d - 53) ltac:(lia) (digits2_bounds mx)) as Hlo.
  rewrite <- HR1 in Hlo.
  replace (d - 1 - (d - 53)) with 52 in Hlo by lia.
  replace (d - (d - 53)) with 53 in Hlo by lia.
  pose proof (round_nearest_even_bounds (shr_m R1) (loc_of_shr_record R1)) as Hr.
  set (r := round_nearest_even (shr_m R1) (loc_of_shr_record R1)) in *.
  assert (Hrpos : 0 < r) by (change (2 ^ 52) with 4503599627370496 in Hlo; lia).
  destruct r as [|q|q] eqn:Eq; try lia.
  pose proof (digits2_unique q 53 ltac:(change (53 - 1) with 52; lia) ltac:(lia)) as Hdq.
  set (dq := Zpos (digits2_pos q)) in *.
  set (R2 := fst (shr (shr_record_of_loc (Zpos q) loc_Exact) 0 (dq - 53))).
  assert (HR2 : shr_m R2 = Zpos q / 2 ^ (dq - 53)).
  { unfold R2. destruct (shr_spec (shr_record_of_loc (Zpos q) loc_Exact) 0 (dq - 53))
      as [E _]; cbn [shr_record_of_loc shr_m]; try lia. exact E. }
  pose proof (div_pow2_bounds (Zpos q) dq (dq - 53) ltac:(lia) (digits2_bounds q)) as Hq.
  rewrite <- HR2 in Hq.
  replace (dq - 1 - (dq - 53)) with 52 in Hq by lia.
  replace (dq - (dq - 53)) with 53 in Hq by lia.
  destruct (shr_m R2) as [|m|m] eqn:Em;
    try (change (2 ^ 52) with 4503599627370496 in Hq; lia).
  exists m, (d - 53 + (dq - 53)). split; [exact Hq|]. split; [lia|]. intros ex Hex.
  unfold binary_round_aux.
  rewrite (shr_fexp_normal (Zpos mx) ex lx d) by (try reflexivity; lia).
  fold R1. fold r. rewrite Eq.
  rewrite (shr_fexp_normal (Zpos q) (ex + (d - 53)) loc_Exact dq)
    by (try reflexivity; lia).
  fold R2. rewrite Em.
  replace (ex + (d - 53) + (dq - 53) <=? emax - prec) with true
    by (symmetry; apply Z.leb_le; unfold emax, prec; lia).
  f_equal. lia.
Qed.

(** The same for [binary_round], which first shifts a short mantissa left. *)
Lemma binary_round_exp s p :
  exists m k,
    2 ^ 52 <= Zpos m < 2 ^ 53 /\
    Zpos (digits2_pos p) - 53 <= k <= Zpos (digits2_pos p) - 52 /\
    forall e,
      -1021 <= Zpos (digits2_pos p) + e <= 1023 ->
      binary_round prec emax s p e = S754_finite s m (e + k).
Proof.
  set (d := Zpos (digits2_pos p)).
  destruct (d - 53) as [|n|n] eqn:En.
  - destruct (binary_round_aux_exp s p loc_Exact) as (m & k & Hm & Hk & H); [fold d; lia|].
    exists m, k. split; [exact Hm|]. split; [fold d in Hk; lia|]. intros e He. unfold binary_round, shl_align. fold d.
    rewrite fexp_normal by lia.
    replace (d + e - 53 - e) with 0 by lia. apply H. fold d. lia.
  - destruct (binary_round_aux_exp s p loc_Exact) as (m & k & Hm & Hk & H); [fold d; lia|].
    exists m, k. split; [exact Hm|]. split; [fold d in Hk; lia|]. intros e He. unfold binary_round, shl_align. fold d.
    rewrite fexp_normal by lia.
    replace (d + e - 53 - e) with (Zpos n) by lia. apply H. fold d. lia.
  - destruct (binary_round_aux_exp s (Pos.iter xO p n) loc_Exact) as (m & k & Hm & Hk & H);
      [rewrite digits2_pos_iter_xO; fold d; lia|].
    rewrite digits2_pos_iter_xO in Hk. fold d in Hk.
    exists m, (k + (d - 53)). split; [exact Hm|]. split; [lia|]. intros e He. unfold binary_round, shl_align. fold d.
    rewrite fexp_normal by lia.
    replace (d + e - 53 - e) with (Zneg n) by lia.
    rewrite H by (rewrite digits2_pos_iter_xO; fold d; lia). f_equal. lia.
Qed.

(** Doubling the mantissa is the same as adding one to the exponent. *)
Lemma binary_round_double s p e :
  -1021 <= Zpos (digits2_pos p) + e ->
  binary_round prec emax s (p~0)%positive e = binary_round prec emax s p (e + 1).
Proof.
  intros He. set (d := Zpos (digits2_pos p)) in *.
  assert (Hd0 : Zpos (digits2_pos (p~0)%positive) = d + 1)
    by (cbn [digits2_pos]; rewrite Pos2Z.inj_succ; reflexivity).
  unfold binary_round, shl_align. rewrite Hd0. fold d.
  rewrite !fexp_normal by lia.
  replace (d + 1 + e - 53 - e) with (d - 52) by lia.
  replace (d + (e + 1) - 53 - (e + 1)) with (d - 53) by lia.
  replace (d + 1 + e - 53) with (d + (e + 1) - 53) by lia.
  destruct (d - 53) as [|n|n] eqn:En.
  - (* 53 digits: nothing to shift on the right, one place on the left *)
    replace (d - 52) with 1 by lia.
    unfold binary_round_aux.
    rewrite (shr_fexp_normal (Zpos (p~0)%positive) e loc_Exact (d + 1)) by (try assumption; lia).
    rewrite (shr_fexp_normal (Zpos p) (e + 1) loc_Exact d) by (try reflexivity; lia).
    replace (d + 1 - 53) with 1 by lia. replace (d - 53) with 0 by lia.
    cbn [shr shr_record_of_loc SpecFloat.iter_pos shr_1 orb fst].
    replace (e + 1 + 0) with (e + 1) by lia. reflexivity.
  - replace (d - 52) with (Zpos (n + 1)%positive) by lia.
    unfold binary_round_aux.
    rewrite (shr_fexp_normal (Zpos (p~0)%positive) e loc_Exact (d + 1)) by (try assumption; lia).
    rewrite (shr_fexp_normal (Zpos p) (e + 1) loc_Exact d) by (try reflexivity; lia).
    replace (d + 1 - 53) with (Zpos (n + 1)%positive) by lia. replace (d - 53) with (Zpos n) by lia.
    cbn [shr fst]. rewrite !iter_pos_nat.
    replace (Pos.to_nat (n + 1)%positive) with (S (Pos.to_nat n)) by lia.
    rewrite Nat.iter_succ_r.
    cbn [shr_record_of_loc shr_1 orb].
    replace (e + 1 + Z.pos n) with (e + Z.pos (n + 1)%positive) by lia. reflexivity.
  - destruct (Z.eq_dec (d - 52) 0) as [E0|Hne].
    + rewrite E0. assert (n = 1%positive) by lia. subst n. cbn [Pos.iter].
      replace (d + (e + 1) - 53) with e by lia. reflexivity.
    + replace (d - 52) with (Zneg (n - 1)%positive) by lia.
      replace (Pos.iter xO (p~0)%positive (n - 1)%positive) with (Pos.iter xO p n); [reflexivity|].
      replace n with (Pos.succ (n - 1)%positive) at 1 by lia.
      now rewrite Pos.iter_succ_r.
Qed.

(** The conversion of [2 * n] has the mantissa of the conversion of [n] and
    the next exponent. *)
Lemma of_uint63_double n :
  0 < n -> 2 * n < 2 ^ 63 ->
  exists m e,
    2 ^ 52 <= Zpos m < 2 ^ 53 /\ -52 <= e <= 10 /\
    Prim2SF (of_uint63 (Uint63.of_Z n)) = S754_finite false m e /\
    Prim2SF (of_uint63 (Uint63.of_Z (2 * n))) = S754_finite false m (e + 1).
Proof.
  intros Hn H2n. rewrite !FloatAxioms.of_uint63_spec.
  change (Uint63Axioms.to_Z (of_Z n)) with (Uint63.to_Z (of_Z n)).
  change (Uint63Axioms.to_Z (of_Z (2 * n))) with (Uint63.to_Z (of_Z (2 * n))).
  rewrite !Uint63.of_Z_spec, !Z.mod_small by (change wB with (2 ^ 63); lia).
  destruct n as [|p|p]; try lia.
  change (2 * Zpos p) with (Zpos (p~0)%positive). cbn [binary_normalize].
  pose proof (digits2_bounds p) as Hb.
  set (d := Zpos (digits2_pos p)) in *.
  assert (Hd62 : d <= 62).
  { apply Z.nlt_ge. intros C.
    assert (2 ^ 62 <= 2 ^ (d - 1)) by (apply Z.pow_le_mono_r; lia). lia. }
  destruct (binary_round_exp false p) as (m & k & Hm & Hk & H). fold d in H, Hk.
  assert (Hd1 : 1 <= d) by (unfold d; lia).
  exists m, (0 + k). split; [exact Hm|]. split; [lia|]. split; [apply H; lia|].
  rewrite binary_round_double by (fold d; lia).
  rewrite H by lia. f_equal. lia.
Qed.

(** A quotient does not change when both exponents are shifted alike. *)
Lemma SFdiv_shift s1 m1 e1 s2 m2 e2 k :
  SFdiv prec emax (S754_finite s1 m1 (e1 + k)) (S754_finite s2 m2 (e2 + k))
  = SFdiv prec emax (S754_finite s1 m1 e1) (S754_finite s2 m2 e2).
Proof.
  unfold SFdiv, SFdiv_core_binary.
  replace (Zdigits2 (Zpos m1) + (e1 + k) - (Zdigits2 (Zpos m2) + (e2 + k)))
    with (Zdigits2 (Zpos m1) + e1 - (Zdigits2 (Zpos m2) + e2)) by lia.
  replace (e1 + k - (e2 + k)) with (e1 - e2) by lia. reflexivity.
Qed.

(** The conversion of a positive [int] is a positive normal number: a
    mantissa of 53 digits and an exponent between [-52] and [11]. *)
Lemma of_uint63_canonical n :
  0 < n < 2 ^ 63 ->
  exists m e,
    2 ^ 52 <= Zpos m < 2 ^ 53 /\ -52 <= e <= 11 /\
    Prim2SF (of_uint63 (Uint63.of_Z n)) = S754_finite false m e.
Proof.
  intros Hn. rewrite FloatAxioms.of_uint63_spec.
  change (Uint63Axioms.to_Z (of_Z n)) with (Uint63.to_Z (of_Z n)).
  rewrite Uint63.of_Z_spec, Z.mod_small by (change wB with (2 ^ 63); lia).
  destruct n as [|p|p]; try lia. cbn [binary_normalize].
  pose proof (digits2_bounds p) as Hb.
  set (d := Zpos (digits2_pos p)) in *.
  assert (Hd63 : d <= 63).
  { apply Z.nlt_ge. intros C.
    assert (2 ^ 63 <= 2 ^ (d - 1)) by (apply Z.pow_le_mono_r; lia). lia. }
  assert (Hd1 : 1 <= d) by (unfold d; lia).
  destruct (binary_round_exp false p) as (m & k & Hm & Hk & H). fold d in H, Hk.
  exists m, (0 + k). split; [exact Hm|]. split; [lia|]. apply H. lia.
Qed.

(** The conversion of [2^k * n] has the mantissa of the conversion of [n],
    and an exponent [k] higher. *)
Lemma of_uint63_pow2 (k : nat) n :
  0 < n -> 2 ^ Z.of_nat k * n < 2 ^ 63 ->
  exists m e,
    Prim2SF (of_uint63 (Uint63.of_Z n)) = S754_finite false m e /\
    Prim2SF (of_uint63 (Uint63.of_Z (2 ^ Z.of_nat k * n)))
    = S754_finite false m (e + Z.of_nat k).
Proof.
  intros Hn. induction k as [|k IH]; intros Hk.
  - destruct (of_uint63_finite n) as (m & e & E); [change (2 ^ Z.of_nat 0) with 1 in Hk; lia|].
    exists m, e. split; [exact E|].
    change (2 ^ Z.of_nat 0) with 1. rewrite Z.mul_1_l, Z.add_0_r. exact E.
  - rewrite Nat2Z.inj_succ, Z.pow_succ_r in * by lia.
    assert (Hp : 0 < 2 ^ Z.of_nat k) by (apply Z.pow_pos_nonneg; lia).
    destruct IH as (m & e & E1 & E2); [nia|].
    destruct (of_uint63_double (2 ^ Z.of_nat k * n)) as (m' & e' & _ & _ & D1 & D2); [nia|nia|].
    rewrite E2 in D1. injection D1 as <- <-.
    exists m, e. split; [exact E1|].
    rewrite <- Z.mul_assoc, D2. f_equal. lia.
Qed.

(** [float64(2^k * c) / float64(2^k * n) == float64(c) / float64(n)] *)
Lemma div_of_int_scale (k : nat) (c n : Z) :
  0 < c -> 0 < n -> 2 ^ Z.of_nat k * c < 2 ^ 63 -> 2 ^ Z.of_nat k * n < 2 ^ 63 ->
  (float64_of_int (2 ^ Z.of_nat k * c) / float64_of_int (2 ^ Z.of_nat k * n)
   = float64_of_int c / float64_of_int n)%float.
Proof.
  intros Hc Hn Hc2 Hn2.
  assert (Hp : 0 < 2 ^ Z.of_nat k) by (apply Z.pow_pos_nonneg; lia).
  rewrite !float64_of_int_pos by nia.
  apply Prim2SF_inj. rewrite !FloatAxioms.div_spec.
  destruct (of_uint63_pow2 k c Hc Hc2) as (mc & ec & -> & ->).
  destruct (of_uint63_pow2 k n Hn Hn2) as (mn & en & -> & ->).
  apply SFdiv_shift.
Qed.

(** A finite number divided by [2^k] times itself is exactly [2^-k]. *)
Lemma SFdiv_pow2 m e (k : Z) :
  0 <= k <= 8 ->
  SFdiv prec emax (S754_finite false m e) (S754_finite false m (e + k))
  = Prim2SF (Z.ldexp 1 (- k)).
Proof.
  intros Hk.
  assert (E : Z.div_eucl (Zpos m * 2 ^ 53) (Zpos m) = (2 ^ 53, 0)).
  { pose proof (Z.div_mul (2 ^ 53) (Zpos m) ltac:(lia)) as Hq.
    pose proof (Z.mod_mul (2 ^ 53) (Zpos m) ltac:(lia)) as Hr.
    rewrite (Z.mul_comm (2 ^ 53)) in Hq, Hr.
    unfold Z.div, Z.modulo in Hq, Hr.
    destruct (Z.div_eucl (Zpos m * 2 ^ 53) (Zpos m)) as [q r].
    now subst. }
  assert (L : new_location (Zpos m) 0 = loc_Exact).
  { unfold new_location. destruct (Z.even (Zpos m)); reflexivity. }
  unfold SFdiv, SFdiv_core_binary.
  replace (Zdigits2 (Zpos m) + e - (Zdigits2 (Zpos m) + (e + k))) with (- k) by lia.
  replace (e - (e + k)) with (- k) by lia.
  assert (Hmin : Z.min (fexp prec emax (- k)) (- k) = - k - 53)
    by (unfold fexp, SpecFloat.emin, prec, emax; lia).
  rewrite Hmin. replace (- k - (- k - 53)) with 53 by lia.
  cbv iota beta. rewrite Z.shiftl_mul_pow2 by lia. rewrite E, L.
  assert (C : k = 0 \/ k = 1 \/ k = 2 \/ k = 3 \/ k = 4 \/ k = 5 \/ k = 6 \/ k = 7 \/ k = 8)
    by lia.
  destruct C as [->|[->|[->|[->|[->|[->|[->|[->| ->]]]]]]]]; vm_compute; reflexivity.
Qed.

(** [float64(n) / float64(2^k * n) == 2^-k] *)
Lemma div_of_int_pow2 (k : nat) (n : Z) :
  (k <= 8)%nat -> 0 < n -> 2 ^ Z.of_nat k * n < 2 ^ 63 ->
  (float64_of_int n / float64_of_int (2 ^ Z.of_nat k * n))%float
  = Z.ldexp 1 (- Z.of_nat k).
Proof.
  intros Hk Hn Hn2.
  assert (Hp : 0 < 2 ^ Z.of_nat k) by (apply Z.pow_pos_nonneg; lia).
  rewrite !float64_of_int_pos by nia.
  apply Prim2SF_inj. rewrite !FloatAxioms.div_spec.
  destruct (of_uint63_pow2 k n Hn Hn2) as (m & e & -> & ->).
  apply SFdiv_pow2. lia.
Qed.

(** ** [GetEntropy] and powers of two *)

(** A buffer in which no byte value occurs more often than in another
    buffer is not longer than that one. *)
Lemma count_occ_le_length (l1 : list byte) : forall l2 : list byte,
  (forall b, count_occ byte_eq_dec l1 b <= count_occ byte_eq_dec l2 b)%nat ->
  (List.length l1 <= List.length l2)%nat.
Proof.
  induction l1 as [|a l1 IH]; intros l2 H; cbn [List.length]; [lia|].
  assert (Ha : In a l2).
  { apply (count_occ_In byte_eq_dec). specialize (H a).
    rewrite count_occ_cons_eq in H by reflexivity. lia. }
  apply in_split in Ha. destruct Ha as (x & y & ->).
  rewrite length_app. cbn [List.length].
  specialize (IH (x ++ y)). rewrite length_app in IH.
  enough (List.length l1 <= List.length x + List.length y)%nat by lia.
  apply IH. intros b. specialize (H b).
  rewrite count_occ_app in *. cbn [count_occ] in H.
  destruct (byte_eq_dec a b); lia.
Qed.

Lemma sumZ_map_mul c (l : list Z) : sumZ (map (Z.mul c) l) = c * sumZ l.
Proof.
  unfold sumZ. induction l as [|x l IH]; cbn [map fold_right]; [lia|].
  rewrite IH. lia.
Qed.

(** The second loop on counts and a length that are all [2^k] times as
    large. *)
Lemma fold_entropy_scale (Log2 : float -> float) (k : nat) n :
  0 < n -> 2 ^ Z.of_nat k * n < 2 ^ 63 ->
  forall (occ : list Z) e,
    Forall (fun o => 0 <= o <= n) occ ->
    fold_left (entropy_step Log2 (2 ^ Z.of_nat k * n)) (map (Z.mul (2 ^ Z.of_nat k)) occ) e
    = fold_left (entropy_step Log2 n) occ e.
Proof.
  intros Hn Hk occ.
  assert (Hp : 0 < 2 ^ Z.of_nat k) by (apply Z.pow_pos_nonneg; lia).
  induction occ as [|o occ IH]; intros e Hocc; cbn [map fold_left]; [reflexivity|].
  inversion Hocc as [|? ? Ho Hocc']; subst.
  rewrite IH by assumption. f_equal.
  unfold entropy_step.
  destruct (Z.ltb_spec 0 o) as [Hpos|Hz].
  - destruct (Z.ltb_spec 0 (2 ^ Z.of_nat k * o)); [|nia].
    rewrite div_of_int_scale by nia. reflexivity.
  - destruct (Z.ltb_spec 0 (2 ^ Z.of_nat k * o)); [nia|reflexivity].
Qed.

(** X10. [GetEntropy] depends on the proportions of the byte values only,
    as far as powers of two go: when every byte value occurs in [data2]
    exactly [2^k] times as often as in [data1] (as in [data1] repeated
    [2^k] times, in any order), both buffers get the same [float64], bit
    for bit, whatever [math.Log2] computes.  The conversions [float64(n)]
    and the quotients round in the same way after scaling by [2^k]. *)
Theorem GetEntropy_scale_invariant (Log2 : float -> float) (k : nat)
    (data1 data2 : list byte) :
  len data2 < 2 ^ 63 ->
  (forall b, count_occ byte_eq_dec data2 b
             = (2 ^ k * count_occ byte_eq_dec data1 b)%nat) ->
  GetEntropy Log2 data2 = GetEntropy Log2 data1.
Proof.
  intros H2 Hc.
  assert (Hpn : (0 < 2 ^ k)%nat) by (apply Nat.neq_0_lt_0, Nat.pow_nonzero; lia).
  assert (Hp : 0 < 2 ^ Z.of_nat k) by (apply Z.pow_pos_nonneg; lia).
  assert (H1 : len data1 < 2 ^ 63).
  { enough (List.length data1 <= List.length data2)%nat by (unfold len in *; lia).
    apply count_occ_le_length. intros b. rewrite Hc. nia. }
  destruct (count_occurences_spec data1 H1) as [L1 N1].
  destruct (count_occurences_spec data2 H2) as [L2 N2].
  destruct (count_occurences_sum data1 H1) as [S1 P1].
  destruct (count_occurences_sum data2 H2) as [S2 _].
  assert (E : count_occurences data2 = map (Z.mul (2 ^ Z.of_nat k)) (count_occurences data1)).
  { apply (nth_ext _ _ 0 0); [rewrite length_map; congruence|].
    intros j Hj. rewrite L2 in Hj.
    destruct (index_is_byte j Hj) as [b <-].
    replace (nth (Byte.to_nat b) (map (Z.mul (2 ^ Z.of_nat k)) (count_occurences data1)) 0)
      with (nth (Byte.to_nat b) (map (Z.mul (2 ^ Z.of_nat k)) (count_occurences data1))
                (2 ^ Z.of_nat k * 0)) by (f_equal; lia).
    rewrite map_nth, N2, N1, Hc, Nat2Z.inj_mul, Nat2Z.inj_pow. reflexivity. }
  assert (El : len data2 = 2 ^ Z.of_nat k * len data1)
    by (rewrite <- S2, E, sumZ_map_mul, S1; reflexivity).
  unfold GetEntropy. rewrite E, El.
  destruct (Z.eqb_spec (len data1) 0) as [Z0|NZ].
  - rewrite Z0, Z.mul_0_r. reflexivity.
  - destruct (Z.eqb_spec (2 ^ Z.of_nat k * len data1) 0); [nia|].
    apply fold_entropy_scale; try (unfold len in *; lia).
    destruct (sumZ_bounds _ P1) as [_ B]. rewrite S1 in B.
    rewrite Forall_forall in *. intros o Ho. split; [apply P1|apply B]; exact Ho.
Qed.

Lemma GetEntropy_scale_invariant_witness :
  GetEntropy math.Log2 (list_byte_of_string "MZPMPZMZPZMP")
  = GetEntropy math.Log2 (list_byte_of_string "MZP").
Proof.
  apply (GetEntropy_scale_invariant math.Log2 2).
  - reflexivity.
  - intros b. destruct b; reflexivity.
Defined.

(** The second loop when every count is [0] or [n]: the nonzero ones each
    contribute the same term. *)
Lemma fold_entropy_two_valued (Log2 : float -> float) N n (f : float -> float) :
  0 < n -> (forall e, entropy_step Log2 N e n = f e) ->
  forall (occ : list Z) e,
    Forall (fun o => o = 0 \/ o = n) occ ->
    fold_left (entropy_step Log2 N) occ e
    = Nat.iter (List.length (filter (Z.ltb 0) occ)) f e /\
    sumZ occ = n * Z.of_nat (List.length (filter (Z.ltb 0) occ)).
Proof.
  intros Hn Hf occ. unfold sumZ.
  induction occ as [|o occ IH]; intros e Hocc; cbn [fold_left fold_right filter].
  - cbn [List.length Nat.iter]. split; [reflexivity|lia].
  - inversion Hocc as [|? ? Ho Hocc']; subst.
    destruct Ho as [->| ->].
    + rewrite entropy_step_skip by lia.
      destruct (Z.ltb_spec 0 0); [lia|]. destruct (IH e Hocc') as [-> ->]. split; [reflexivity|lia].
    + rewrite Hf. destruct (Z.ltb_spec 0 n); [|lia].
      destruct (IH (f e) Hocc') as [-> ->]. cbn [List.length].
      rewrite Nat.iter_succ_r. split; [reflexivity|lia].
Qed.

(** X11. A buffer in which [2^k] byte values occur, each of them [n] times
    ([0 <= k <= 8]), has an entropy of exactly [k] bits: [GetEntropy]
    returns the [float64] [k], under the one assumption that [math.Log2] is
    exact at [2^-k], as Go's is at every power of two.  Every quotient
    [float64(n) / float64(2^k * n)] is exactly [2^-k], and the [2^k]
    subtractions of [2^-k * -k] are exact. *)
Theorem GetEntropy_uniform_pow2 (Log2 : float -> float) (k n : nat)
    (data : list byte) :
  (k <= 8)%nat -> (0 < n)%nat ->
  Log2 (Z.ldexp 1 (- Z.of_nat k)) = float64_of_int (- Z.of_nat k) ->
  (forall b, count_occ byte_eq_dec data b = 0%nat \/ count_occ byte_eq_dec data b = n) ->
  len data = 2 ^ Z.of_nat k * Z.of_nat n ->
  len data < 2 ^ 63 ->
  GetEntropy Log2 data = float64_of_int (Z.of_nat k).
Proof.
  intros Hk Hn HL Hc El Hlen.
  assert (Hp : 0 < 2 ^ Z.of_nat k) by (apply Z.pow_pos_nonneg; lia).
  destruct (count_occurences_spec data Hlen) as [L N].
  destruct (count_occurences_sum data Hlen) as [S _].
  unfold GetEntropy.
  destruct (Z.eqb_spec (len data) 0); [nia|].
  set (f := fun e : float =>
              (e - Z.ldexp 1 (- Z.of_nat k) * float64_of_int (- Z.of_nat k))%float).
  destruct (fold_entropy_two_valued Log2 (len data) (Z.of_nat n) f) with
    (occ := count_occurences data) (e := 0%float) as [-> Hs].
  - lia.
  - intros e. unfold entropy_step. destruct (Z.ltb_spec 0 (Z.of_nat n)); [|lia].
    rewrite El, div_of_int_pow2 by lia. cbv zeta. rewrite HL. reflexivity.
  - apply Forall_forall. intros o Ho.
    destruct (In_nth _ _ 0 Ho) as (j & Hj & <-). rewrite L in Hj.
    destruct (index_is_byte j Hj) as [b <-]. rewrite N.
    destruct (Hc b) as [-> | ->]; [left|right]; reflexivity.
  - rewrite S, El in Hs.
    assert (Ec : List.length (filter (Z.ltb 0) (count_occurences data))
                 = Z.to_nat (2 ^ Z.of_nat k)) by nia.
    rewrite Ec. unfold f. clear - Hk.
    assert (C : (k = 0 \/ k = 1 \/ k = 2 \/ k = 3 \/ k = 4 \/ k = 5 \/ k = 6 \/ k = 7
                 \/ k = 8)%nat) by lia.
    destruct C as [->|[->|[->|[->|[->|[->|[->|[->| ->]]]]]]]]; vm_compute; reflexivity.
Qed.

Lemma GetEntropy_uniform_pow2_witness :
  GetEntropy math.Log2 (list_byte_of_string "PEMZZMEPMZPE") = 2%float.
Proof.
  apply (GetEntropy_uniform_pow2 math.Log2 2 3).
  - lia.
  - lia.
  - vm_compute. reflexivity.
  - intros b. destruct b; (left; reflexivity) || (right; reflexivity).
  - reflexivity.
  - reflexivity.
Defined.

(** ** [GetEntropy] is never negative *)

Lemma digits2_53 m : 2 ^ 52 <= Zpos m < 2 ^ 53 -> Zpos (digits2_pos m) = 53.
Proof.
  intros Hm. pose proof (digits2_bounds m) as Hb.
  set (d := Zpos (digits2_pos m)) in *.
  destruct (Z_lt_le_dec d 53) as [Hlt|Hge].
  - assert (2 ^ d <= 2 ^ 52) by (apply Z.pow_le_mono_r; lia). lia.
  - destruct (Z_lt_le_dec 53 d) as [Hgt|Hle]; [|lia].
    assert (2 ^ 53 <= 2 ^ (d - 1)) by (apply Z.pow_le_mono_r; lia). lia.
Qed.

Lemma digits2_between q lo hi :
  0 <= lo -> 2 ^ lo <= Zpos q < 2 ^ hi -> lo < Zpos (digits2_pos q) <= hi.
Proof.
  intros Hlo Hq. pose proof (digits2_bounds q) as Hb.
  set (d := Zpos (digits2_pos q)) in *. assert (Hd : 0 < d) by (unfold d; lia).
  split.
  - apply Z.nle_gt. intros C.
    assert (2 ^ d <= 2 ^ lo) by (apply Z.pow_le_mono_r; lia). lia.
  - apply Z.nlt_ge. intros C.
    destruct (Z_lt_le_dec hi 0) as [Hneg|Hpos].
    + rewrite (Z.pow_neg_r 2 hi) in Hq by lia. lia.
    + assert (2 ^ hi <= 2 ^ (d - 1)) by (apply Z.pow_le_mono_r; lia). lia.
Qed.

(** The quotient of two positive normal numbers with small exponents is a
    positive finite number: nothing overflows and nothing is rounded to
    zero. *)
Lemma SFdiv_canonical m1 e1 m2 e2 :
  2 ^ 52 <= Zpos m1 < 2 ^ 53 -> 2 ^ 52 <= Zpos m2 < 2 ^ 53 ->
  -100 <= e1 <= 100 -> -100 <= e2 <= 100 ->
  exists m e,
    SFdiv prec emax (S754_finite false m1 e1) (S754_finite false m2 e2)
    = S754_finite false m e.
Proof.
  intros H1 H2 He1 He2. unfold SFdiv, SFdiv_core_binary. cbn [Zdigits2].
  rewrite (digits2_53 m1 H1), (digits2_53 m2 H2).
  replace (53 + e1 - (53 + e2)) with (e1 - e2) by lia.
  rewrite fexp_normal by lia.
  replace (Z.min (e1 - e2 - 53) (e1 - e2)) with (e1 - e2 - 53) by lia.
  replace (e1 - e2 - (e1 - e2 - 53)) with 53 by lia.
  cbv iota beta. rewrite Z.shiftl_mul_pow2 by lia.
  assert (Hq : 2 ^ 52 <= Zpos m1 * 2 ^ 53 / Zpos m2 <= 2 ^ 54).
  { change (2 ^ 54) with (2 * 2 ^ 53). change (2 ^ 53) with (2 * 2 ^ 52) in *.
    set (A := 2 ^ 52) in *. assert (HA : 0 < A) by reflexivity. clearbody A.
    assert (Zpos m1 * A <= 2 * A * A) by nia.
    assert (A * A <= Zpos m2 * A) by nia.
    assert (Zpos m2 * A <= 2 * A * A) by nia.
    assert (A * A <= Zpos m1 * A) by nia.
    split.
    - apply Z.div_le_lower_bound; [lia|nia].
    - apply Z.div_le_upper_bound; [lia|]. set (x := Zpos m1) in *. set (y := Zpos m2) in *. clearbody x y. nia. }
  unfold Z.div in Hq.
  destruct (Z.div_eucl (Zpos m1 * 2 ^ 53) (Zpos m2)) as [q r].
  assert (2 ^ 54 < 2 ^ 55) by reflexivity. assert (0 < 2 ^ 52) by reflexivity.
  destruct q as [|q|q]; try lia.
  cbn [xorb].
  apply binary_round_aux_finite.
  - pose proof (digits2_between q 52 55 ltac:(lia) ltac:(lia)). lia.
  - pose proof (digits2_between q 52 55 ltac:(lia) ltac:(lia)). lia.
Qed.

(** [float64(o) / float64(n)] is a positive finite number for positive
    [int]s. *)
Lemma div_of_int_finite (o n : Z) :
  0 < o < 2 ^ 63 -> 0 < n < 2 ^ 63 ->
  exists m e,
    Prim2SF (float64_of_int o / float64_of_int n) = S754_finite false m e.
Proof.
  intros Ho Hn. rewrite !float64_of_int_pos by lia.
  rewrite FloatAxioms.div_spec.
  destruct (of_uint63_canonical o Ho) as (m1 & e1 & B1 & E1 & ->).
  destruct (of_uint63_canonical n Hn) as (m2 & e2 & B2 & E2 & ->).
  apply SFdiv_canonical; (assumption || lia).
Qed.

(** Alignment never makes a mantissa negative. *)
Lemma shr_fexp_nonneg m e l :
  0 <= m -> 0 <= shr_m (fst (shr_fexp prec emax m e l)).
Proof.
  intros Hm. unfold shr_fexp.
  assert (Hr : shr_m (shr_record_of_loc m l) = m) by (destruct l as [|[]]; reflexivity).
  set (n := fexp prec emax (Zdigits2 m + e) - e).
  destruct (Z_le_gt_dec 0 n) as [Hn|Hn].
  - destruct (shr_spec (shr_record_of_loc m l) e n) as [E _]; rewrite ?Hr; try lia.
    rewrite E, Hr. apply Z.div_pos; [lia|]. apply Z.pow_pos_nonneg; lia.
  - unfold shr. destruct n; try lia. cbn [fst]. lia.
Qed.

(** Rounding keeps the sign: the result is a zero, an infinity or a finite
    number of the sign given. *)
Lemma binary_round_aux_sign s m e l :
  0 <= m ->
  match binary_round_aux prec emax s m e l with
  | S754_zero s' | S754_infinity s' | S754_finite s' _ _ => s' = s
  | S754_nan => False
  end.
Proof.
  intros Hm. unfold binary_round_aux.
  pose proof (shr_fexp_nonneg m e l Hm) as H1.
  destruct (shr_fexp prec emax m e l) as [mrs' e']. cbn [fst] in H1.
  pose proof (round_nearest_even_bounds (shr_m mrs') (loc_of_shr_record mrs')) as Hr.
  set (r := round_nearest_even (shr_m mrs') (loc_of_shr_record mrs')) in *.
  pose proof (shr_fexp_nonneg r e' loc_Exact ltac:(lia)) as H2.
  destruct (shr_fexp prec emax r e' loc_Exact) as [mrs'' e'']. cbn [fst] in H2.
  destruct (shr_m mrs'') as [|p|p]; try lia; [reflexivity|].
  destruct (e'' <=? emax - prec); reflexivity.
Qed.

Lemma binary_round_sign s p e :
  match binary_round prec emax s p e with
  | S754_zero s' | S754_infinity s' | S754_finite s' _ _ => s' = s
  | S754_nan => False
  end.
Proof.
  unfold binary_round. destruct (shl_align _ _ _) as [mz ez].
  apply binary_round_aux_sign. lia.
Qed.

(** A positive finite number times a number that is at most zero is at
    most zero (and not a NaN). *)
Lemma mul_pos_nonpos (px l : float) m e :
  Prim2SF px = S754_finite false m e ->
  (l <=? 0)%float = true -> (px * l <=? 0)%float = true.
Proof.
  rewrite !FloatAxioms.leb_spec, FloatAxioms.mul_spec. intros -> Hl.
  change (Prim2SF 0) with (S754_zero false) in *.
  unfold SF64mul.
  destruct (Prim2SF l) as [sl|sl| |sl ml el]; cbn [SFmul xorb].
  - reflexivity.
  - destruct sl; [reflexivity|discriminate].
  - discriminate.
  - destruct sl; [|discriminate].
    pose proof (binary_round_aux_sign true (Zpos (m * ml)) (e + el) loc_Exact ltac:(lia)) as S.
    destruct (binary_round_aux prec emax true (Zpos (m * ml)) (e + el) loc_Exact);
      try subst; try contradiction; reflexivity.
Qed.

(** A number that is at least zero minus one that is at most zero is at
    least zero (and not a NaN). *)
Lemma sub_nonneg_nonpos (x y : float) :
  (0 <=? x)%float = true -> (y <=? 0)%float = true -> (0 <=? x - y)%float = true.
Proof.
  rewrite !FloatAxioms.leb_spec, FloatAxioms.sub_spec.
  change (Prim2SF 0) with (S754_zero false). unfold SF64sub.
  destruct (Prim2SF x) as [sx|sx| |sx mx ex], (Prim2SF y) as [sy|sy| |sy my ey];
    cbn [SFsub SFleb SFcompare]; try discriminate;
    try (destruct sx); try (destruct sy); try discriminate; try reflexivity.
  intros _ _. cbn [cond_Zopp].
  set (a := fst (shl_align mx ex (Z.min ex ey))).
  set (b := fst (shl_align my ey (Z.min ex ey))).
  change (Zpos a - - Zpos b) with (Zpos (a + b)). cbn [binary_normalize].
  pose proof (binary_round_sign false (a + b) (Z.min ex ey)) as S.
  destruct (binary_round prec emax false (a + b) (Z.min ex ey));
    try subst; try contradiction; reflexivity.
Qed.

(** The second loop keeps the sum at least zero, as long as [math.Log2] is
    at most zero at each frequency. *)
Lemma fold_entropy_nonneg (Log2 : float -> float) n :
  0 < n < 2 ^ 63 ->
  forall (occ : list Z) e,
    Forall (fun o => 0 < o ->
                     o < 2 ^ 63 /\
                     (Log2 (float64_of_int o / float64_of_int n) <=? 0)%float = true) occ ->
    (0 <=? e)%float = true ->
    (0 <=? fold_left (entropy_step Log2 n) occ e)%float = true.
Proof.
  intros Hn occ. induction occ as [|o occ IH]; intros e Hocc He; cbn [fold_left].
  - exact He.
  - inversion Hocc as [|? ? Ho Hocc']; subst. apply IH; [exact Hocc'|].
    unfold entropy_step. destruct (Z.ltb_spec 0 o) as [Hpos|Hz]; [|exact He].
    destruct (Ho Hpos) as [Hlt HL]. cbv zeta.
    destruct (div_of_int_finite o n ltac:(lia) Hn) as (m & ex & Epx).
    apply sub_nonneg_nonpos; [exact He|].
    apply (mul_pos_nonpos _ _ m ex Epx HL).
Qed.

(** X12. [GetEntropy] never returns a negative number or a NaN, as long
    as [math.Log2] returns neither a NaN nor a positive number at the
    frequency [float64(occurence) / float64(len(data))] of each byte of the
    buffer (the frequencies are at most one).  Every frequency is a
    positive finite [float64], so that each product [px * Log2(px)] is at
    most zero and each subtraction keeps the sum at least zero. *)
Theorem GetEntropy_nonneg (Log2 : float -> float) (data : list byte) :
  len data < 2 ^ 63 ->
  (forall b, In b data ->
     (Log2 (float64_of_int (Z.of_nat (count_occ byte_eq_dec data b))
            / float64_of_int (len data)) <=? 0)%float = true) ->
  (0 <=? GetEntropy Log2 data)%float = true.
Proof.
  intros Hlen HL. unfold GetEntropy.
  destruct (Z.eqb_spec (len data) 0) as [Z0|NZ]; [reflexivity|].
  destruct (count_occurences_spec data Hlen) as [L N].
  apply fold_entropy_nonneg; [unfold len in *; lia| |reflexivity].
  apply Forall_forall. intros o Ho Hpos.
  destruct (In_nth _ _ 0 Ho) as (j & Hj & <-). rewrite L in Hj.
  destruct (index_is_byte j Hj) as [b Eb]. rewrite <- Eb in *. rewrite N in *.
  pose proof (count_occ_bound byte_eq_dec b data) as Hb.
  split; [unfold len in *; lia|].
  apply HL. apply (count_occ_In byte_eq_dec). lia.
Qed.

Lemma GetEntropy_nonneg_witness :
  (0 <=? GetEntropy math.Log2 (list_byte_of_string "MZPEM"))%float = true.
Proof.
  apply GetEntropy_nonneg.
  - reflexivity.
  - intros b Hb. cbn in Hb.
    repeat (destruct Hb as [<-|Hb]; [vm_compute; reflexivity|]). contradiction.
Defined.

(** ** The validators and concatenation *)

(** A rune that was decoded without error is decoded in the same way when
    more bytes follow. *)
Lemma DecodeRune_app (c0 : byte) (t q : list byte) :
  fst (utf8.DecodeRune (c0 :: t)) <> utf8.RuneError ->
  utf8.DecodeRune ((c0 :: t) ++ q) = utf8.DecodeRune (c0 :: t).
Proof.
  cbn [app]. unfold utf8.DecodeRune.
  set (p0 := byte_val c0).
  destruct (utf8.as_ <=? utf8.first p0); [reflexivity|].
  destruct (utf8.acceptRanges _) as [lo hi].
  assert (Hlen : len (c0 :: t) <= len (c0 :: t ++ q)).
  { unfold len. cbn [List.length]. rewrite length_app. lia. }
  destruct (Z.ltb_spec (len (c0 :: t)) (Z.land (utf8.first p0) 7));
    [intros Hbad; exfalso; apply Hbad; reflexivity|].
  destruct (Z.ltb_spec (len (c0 :: t ++ q)) (Z.land (utf8.first p0) 7)); [lia|].
  destruct t as [|c1 t1]; [intros Hbad; exfalso; apply Hbad; reflexivity|].
  cbn [app].
  destruct ((byte_val c1 <? lo) || (hi <? byte_val c1)); [reflexivity|].
  destruct (Z.land (utf8.first p0) 7 <=? 2); [reflexivity|].
  destruct t1 as [|c2 t2]; [intros Hbad; exfalso; apply Hbad; reflexivity|].
  cbn [app].
  destruct ((byte_val c2 <? utf8.locb) || (utf8.hicb <? byte_val c2)); [reflexivity|].
  destruct (Z.land (utf8.first p0) 7 <=? 3); [reflexivity|].
  destruct t2 as [|c3 t3]; [intros Hbad; exfalso; apply Hbad; reflexivity|].
  reflexivity.
Qed.

(** The decoding loop does not depend on its fuel, once there is enough. *)
Lemma decode_fuel (f1 : nat) : forall (f2 : nat) (p : list byte),
  (List.length p <= f1)%nat -> (List.length p <= f2)%nat ->
  utf8.decode f1 p = utf8.decode f2 p.
Proof.
  induction f1 as [|f1 IH]; intros f2 [|c0 t] H1 H2; cbn [List.length] in *;
    try lia; try (destruct f2; reflexivity).
  destruct f2 as [|f2]; [lia|]. rewrite !decode_cons. f_equal.
  pose proof (DecodeRune_step c0 t) as S.
  destruct (utf8.DecodeRune (c0 :: t)) as [r size]. cbn [snd].
  destruct S as [[S1 S2] _]. cbn [List.length] in S2.
  destruct size as [|size]; [lia|]. cbn [skipn].
  pose proof (length_skipn size t).
  apply IH; lia.
Qed.

Lemma decode_app (fuel : nat) : forall p q : list byte,
  (List.length p <= fuel)%nat ->
  ~ In utf8.RuneError (map fst (utf8.decode fuel p)) ->
  utf8.decode (fuel + List.length q) (p ++ q)
  = utf8.decode fuel p ++ utf8.decode (List.length q) q.
Proof.
  induction fuel as [|fuel IH]; intros [|c0 t] q Hlen Hne; cbn [List.length] in *;
    try lia.
  - reflexivity.
  - cbn [app]. destruct fuel; cbn [utf8.decode app]; apply decode_fuel; lia.
  - change (S fuel + List.length q)%nat with (S (fuel + List.length q)).
    change ((c0 :: t) ++ q) with (c0 :: (t ++ q)).
    rewrite (decode_cons fuel c0 t) in *.
    rewrite (decode_cons (fuel + List.length q) c0 (t ++ q)).
    change (c0 :: (t ++ q)) with ((c0 :: t) ++ q).
    cbn [map In] in Hne.
    rewrite DecodeRune_app by (intros C; apply Hne; left; exact C).
    pose proof (DecodeRune_step c0 t) as S.
    destruct (utf8.DecodeRune (c0 :: t)) as [r size]. cbn [snd fst] in *.
    destruct S as [[S1 S2] _]. cbn [List.length] in S2.
    rewrite skipn_app.
    replace (size - List.length (c0 :: t))%nat with 0%nat by (cbn [List.length]; lia).
    change (skipn 0 q) with q.
    change (((r, size) :: utf8.decode fuel (skipn size (c0 :: t)))
            ++ utf8.decode (List.length q) q)
      with ((r, size) :: (utf8.decode fuel (skipn size (c0 :: t))
                          ++ utf8.decode (List.length q) q)).
    f_equal. apply IH.
    + rewrite length_skipn. cbn [List.length]. lia.
    + intros C. apply Hne. right. exact C.
Qed.

(** The runes of a concatenation, when the first part decodes without
    error. *)
Lemma runes_app (a b : list byte) :
  ~ In utf8.RuneError (utf8.runes a) ->
  utf8.runes (a ++ b) = utf8.runes a ++ utf8.runes b.
Proof.
  intros H. unfold utf8.runes in *.
  rewrite length_app, decode_app, map_app by (assumption || lia). reflexivity.
Qed.

(** X13. Appending to an accepted name: when a token is accepted, the
    token followed by more bytes is accepted exactly when these bytes are
    none at all or an accepted token themselves.  So names joined from
    accepted names are accepted, and nothing appended to an accepted name
    can hide an unacceptable character.  The replacement character
    [U+FFFD] is taken to be neither a letter nor a number, as in Unicode;
    an accepted token is then well-formed UTF-8 and is decoded on its own
    as it is inside the longer token. *)
Theorem validators_append (U : unicode.Tables) (a b : list byte) :
  neither_letter_nor_number U utf8.RuneError ->
  (isValidFuncName U a = true ->
   (isValidFuncName U (a ++ b) = true <-> b = [] \/ isValidFuncName U b = true)) /\
  (isValidDosFilename U a = true ->
   (isValidDosFilename U (a ++ b) = true <-> b = [] \/ isValidDosFilename U b = true)).
Proof.
  intros HU. split; intros Ha.
  - apply isValidFuncName_iff in Ha as [Hne Hall].
    assert (Herr : ~ In utf8.RuneError (utf8.runes a)).
    { intros C. rewrite Forall_forall in Hall.
      apply (not_allowed U func_name_punct utf8.RuneError HU); [|apply Hall, C].
      cbn. unfold utf8.RuneError. lia. }
    rewrite !isValidFuncName_iff, (runes_app a b Herr), Forall_app.
    split.
    + intros [_ [_ Hb]]. destruct b as [|c b]; [now left|right].
      split; [discriminate|exact Hb].
    + intros [-> | [_ Hb]].
      * split; [now destruct a|]. split; [exact Hall|constructor].
      * split; [now destruct a|]. split; assumption.
  - apply isValidDosFilename_iff in Ha as [Hne Hall].
    assert (Herr : ~ In utf8.RuneError (utf8.runes a)).
    { intros C. rewrite Forall_forall in Hall.
      apply (not_allowed U dos_name_punct utf8.RuneError HU); [|apply Hall, C].
      cbn. unfold utf8.RuneError. lia. }
    rewrite !isValidDosFilename_iff, (runes_app a b Herr), Forall_app.
    split.
    + intros [_ [_ Hb]]. destruct b as [|c b]; [now left|right].
      split; [discriminate|exact Hb].
    + intros [-> | [_ Hb]].
      * split; [now destruct a|]. split; [exact Hall|constructor].
      * split; [now destruct a|]. split; assumption.
Qed.

Lemma validators_append_witness :
  isValidFuncName unicode.Latin1
    (list_byte_of_string "_start" ++ list_byte_of_string "@4") = true.
Proof.
  destruct (validators_append unicode.Latin1
              (list_byte_of_string "_start") (list_byte_of_string "@4")) as [HF _].
  - split; reflexivity.
  - apply HF; [vm_compute; reflexivity|]. right. vm_compute. reflexivity.
Defined.
